(** * Minesweeper knowledge engine: a shallow embedding of
      [src/Knowledge/minesweeper/minesweeper.py]

    The Python classes [Sentence], [MinesweeperAI] and [Minesweeper] are
    rendered as records with explicit state passing.  Python sets of cells
    are finite sets ([gset]), Python integers are [Z], and the knowledge
    base, a Python list of [Sentence] objects, is a [list].  Every list slot
    of [self.knowledge] holds an object of its own (sentences only ever enter
    the list through [append] of a freshly built object), so object identity
    ([is]) coincides with the position in the list. *)

From stdpp Require Import base decidable list gmap fin_sets.
From Stdlib Require Import ZArith Lia.

#[local] Open Scope Z_scope.
#[local] Set Warnings "-clear-no-such-hyp".

(** A cell is a pair [(row, column)]. *)
Abbreviation Cell := (Z * Z)%type.

(** Python's [range(a, b)]. *)
Definition range (a b : Z) : list Z :=
  (λ k : nat, a + Z.of_nat k) <$> seq 0 (Z.to_nat (b - a)).

(** The cells visited by the two nested loops
    [for i in range(cell[0] - 1, cell[0] + 2):
       for j in range(cell[1] - 1, cell[1] + 2):], in visiting order. *)
Definition window (cell : Cell) : list Cell :=
  i ← range (cell.1 - 1) (cell.1 + 2);
  j ← range (cell.2 - 1) (cell.2 + 2);
  [(i, j)].

(** ** class Sentence *)
Module Sentence.

Record t : Type := mk { cells : gset Cell; count : Z }.

(** [__eq__]: same cell set and same count, which is equality of records. *)
#[global] Instance eq_dec : EqDecision t.
Proof. solve_decision. Defined.

Definition known_mines (s : t) : gset Cell :=
  if decide (Z.of_nat (size (cells s)) = count s) then cells s else ∅.

Definition known_safes (s : t) : gset Cell :=
  if decide (count s = 0) then cells s else ∅.

Definition mark_mine (cell : Cell) (s : t) : t :=
  if decide (cell ∈ cells s)
  then mk (cells s ∖ {[cell]}) (count s - 1)
  else s.

Definition mark_safe (cell : Cell) (s : t) : t :=
  if decide (cell ∈ cells s)
  then mk (cells s ∖ {[cell]}) (count s)
  else s.

End Sentence.

(** ** class Minesweeper (the board)

    [__init__] keeps [self.board[i][j] = True] exactly for the cells of
    [self.mines]; the random placement is not modelled, the mine set is
    given. *)
Module Minesweeper.

Record t : Type := mk { height : Z; width : Z; mines : gset Cell }.

Definition on_board (g : t) (cell : Cell) : Prop :=
  0 ≤ cell.1 < height g ∧ 0 ≤ cell.2 < width g.

#[global] Instance on_board_dec g cell : Decision (on_board g cell).
Proof. unfold on_board. apply _. Defined.

(** [self.board[i][j]], for a cell of the board. *)
Definition is_mine (g : t) (cell : Cell) : bool :=
  bool_decide (cell ∈ mines g).

Definition nearby_step (g : t) (cell : Cell) (count : Z) (n : Cell) : Z :=
  if decide (n = cell) then count
  else if decide (on_board g n)
       then if is_mine g n then count + 1 else count
       else count.

Definition nearby_mines (g : t) (cell : Cell) : Z :=
  foldl (nearby_step g cell) 0 (window cell).

End Minesweeper.

(** ** class MinesweeperAI *)
Module MinesweeperAI.

Record t : Type := mk {
  height : Z;
  width : Z;
  moves_made : gset Cell;
  mines : gset Cell;
  safes : gset Cell;
  knowledge : list Sentence.t
}.

Definition init (height width : Z) : t := mk height width ∅ ∅ ∅ [].

Definition set_knowledge (k : list Sentence.t) (ai : t) : t :=
  mk (height ai) (width ai) (moves_made ai) (mines ai) (safes ai) k.

Definition mark_mine (cell : Cell) (ai : t) : t :=
  mk (height ai) (width ai) (moves_made ai) ({[cell]} ∪ mines ai) (safes ai)
     (Sentence.mark_mine cell <$> knowledge ai).

Definition mark_safe (cell : Cell) (ai : t) : t :=
  mk (height ai) (width ai) (moves_made ai) (mines ai) ({[cell]} ∪ safes ai)
     (Sentence.mark_safe cell <$> knowledge ai).

(** Step 1 of [add_knowledge]: [self.moves_made.add(cell)]. *)
Definition record_move (cell : Cell) (ai : t) : t :=
  mk (height ai) (width ai) ({[cell]} ∪ moves_made ai) (mines ai) (safes ai)
     (knowledge ai).

Definition in_bounds (ai : t) (n : Cell) : Prop :=
  0 ≤ n.1 < height ai ∧ 0 ≤ n.2 < width ai.

#[global] Instance in_bounds_dec ai n : Decision (in_bounds ai n).
Proof. unfold in_bounds. apply _. Defined.

(** Body of the neighbour loop (lines 213-226); the accumulator is the pair
    of the local variables [nearby_cells] and [count]. *)
Definition scan_step (ai : t) (cell : Cell)
    (acc : gset Cell * Z) (n : Cell) : gset Cell * Z :=
  if decide (n = cell) then acc
  else if decide (in_bounds ai n) then
    if decide ((n ∉ moves_made ai) ∧ (n ∉ mines ai))
    then ({[n]} ∪ acc.1, acc.2)
    else if decide (n ∈ mines ai) then (acc.1, acc.2 - 1)
    else acc
  else acc.

Definition scan (ai : t) (cell : Cell) (count : Z) : gset Cell * Z :=
  foldl (scan_step ai cell) (∅, count) (window cell).

(** Lines 229-232: the sentence is appended unless an equal one is there. *)
Definition add_sentence (s : Sentence.t) (ai : t) : t :=
  if decide (s ∈ knowledge ai) then ai
  else set_knowledge (knowledge ai ++ [s]) ai.

(** Steps 1 to 3 of [add_knowledge] (lines 201-232). *)
Definition observe (cell : Cell) (count : Z) (ai : t) : t :=
  let ai := mark_safe cell (record_move cell ai) in
  let nc := scan ai cell count in
  if decide (nc.1 ≠ ∅) then add_sentence (Sentence.mk nc.1 nc.2) ai else ai.

Definition mark_safe_all (cs : gset Cell) (ai : t) : t :=
  foldl (λ a c, mark_safe c a) ai (elements cs).

Definition mark_mine_all (cs : gset Cell) (ai : t) : t :=
  foldl (λ a c, mark_mine c a) ai (elements cs).

(** One turn of [for sentence in self.knowledge:] (lines 238-244), for the
    sentence object at position [i].  The object is read in its current
    state; [copy.deepcopy] snapshots the set that is then iterated. *)
Definition conclude_at (i : nat) (ai : t) : t :=
  match knowledge ai !! i with
  | None => ai
  | Some sentence =>
      let ai := mark_safe_all (Sentence.known_safes sentence) ai in
      match knowledge ai !! i with
      | None => ai
      | Some sentence => mark_mine_all (Sentence.known_mines sentence) ai
      end
  end.

Definition conclude (ai : t) : t :=
  foldl (λ a i, conclude_at i a) ai (seq 0 (length (knowledge ai))).

(** Line 247: remove empty sentences. *)
Definition purge (ai : t) : t :=
  set_knowledge
    (filter (λ x, size (Sentence.cells x) ≠ 0%nat) (knowledge ai)) ai.

(** Lines 254-263.  The accumulator is [self.knowledge] together with the
    flag [new]; both loops range over [knowledge_copy], paired with
    positions to decide [sentence1 is sentence2]. *)
Definition infer_step (p1 : nat * Sentence.t)
    (acc : list Sentence.t * bool) (p2 : nat * Sentence.t)
    : list Sentence.t * bool :=
  if decide (p1.1 = p2.1) then acc
  else if decide (Sentence.cells p1.2 ⊆ Sentence.cells p2.2)
       then (acc.1 ++ [Sentence.mk (Sentence.cells p2.2 ∖ Sentence.cells p1.2)
                                   (Sentence.count p2.2 - Sentence.count p1.2)],
             true)
       else acc.

Definition infer_from (knowledge_copy : list (nat * Sentence.t))
    (acc : list Sentence.t * bool) : list Sentence.t * bool :=
  foldl (λ acc p1, foldl (infer_step p1) acc knowledge_copy)
        acc knowledge_copy.

Definition infer (new : bool) (ai : t) : t * bool :=
  let knowledge_copy := imap (λ i s, (i, s)) (knowledge ai) in
  let r := infer_from knowledge_copy (knowledge ai, new) in
  (set_knowledge r.1 ai, r.2).

(** What one turn of a [while True:] body does: leave the function with a
    value, or fall through to the next turn. *)
Inductive control : Type :=
  | Return (ai : t) (new : bool)
  | Continue (ai : t).

(** The body of [while True:] (lines 235-265).  Its last statement is
    [return new], at the indentation of the body. *)
Definition closure_body (ai : t) : control :=
  let new := false in
  let ai := conclude ai in
  let ai := purge ai in
  let r := infer new ai in
  Return r.1 r.2.

(** [while True: body], with a bound on the number of turns. *)
Fixpoint while_true (fuel : nat) (body : t → control) (ai : t)
    : option (t * bool) :=
  match fuel with
  | O => None
  | S fuel =>
      match body ai with
      | Return ai new => Some (ai, new)
      | Continue ai => while_true fuel body ai
      end
  end.

Definition add_knowledge_fuel (fuel : nat) (cell : Cell) (count : Z) (ai : t)
    : option (t * bool) :=
  while_true fuel closure_body (observe cell count ai).

(** One closure pass as a function: the state and the flag the body
    returns. *)
Definition closure_pass (ai : t) : t * bool :=
  infer false (purge (conclude ai)).

(** [add_knowledge]: the state it leaves and the flag it returns, which is
    what the loop yields on any positive bound. *)
Definition add_knowledge (cell : Cell) (count : Z) (ai : t) : t * bool :=
  closure_pass (observe cell count ai).

End MinesweeperAI.

Import MinesweeperAI.

(** ** Sequences of calls on the knowledge base *)
Inductive call : Type :=
  | RecordObservation (cell : Cell) (count : Z)
  | DeclareSafe (cell : Cell)
  | DeclareMine (cell : Cell).

Definition step (c : call) (ai : MinesweeperAI.t) : MinesweeperAI.t :=
  match c with
  | RecordObservation cell count => (add_knowledge cell count ai).1
  | DeclareSafe cell => mark_safe cell ai
  | DeclareMine cell => mark_mine cell ai
  end.

Definition run (cs : list call) (ai : MinesweeperAI.t) : MinesweeperAI.t :=
  foldl (λ a c, step c a) ai cs.

(** Loop-bounded version of [run]: every [RecordObservation] may use at most
    [fuel] turns of its [while True:] loop. *)
Definition step_fuel (fuel : nat) (c : call) (ai : MinesweeperAI.t)
    : option MinesweeperAI.t :=
  match c with
  | RecordObservation cell count =>
      fst <$> add_knowledge_fuel fuel cell count ai
  | DeclareSafe cell => Some (mark_safe cell ai)
  | DeclareMine cell => Some (mark_mine cell ai)
  end.

Fixpoint run_fuel (fuel : nat) (cs : list call) (ai : MinesweeperAI.t)
    : option MinesweeperAI.t :=
  match cs with
  | [] => Some ai
  | c :: cs =>
      match step_fuel fuel c ai with
      | Some ai => run_fuel fuel cs ai
      | None => None
      end
  end.

(** ** Properties of knowledge-base states *)

(** A further closure pass would derive nothing: it declares no new cell
    and adds no constraint. *)
Definition stable (ai : MinesweeperAI.t) : Prop :=
  (closure_pass ai).2 = false
  ∧ safes (closure_pass ai).1 = safes ai
  ∧ mines (closure_pass ai).1 = mines ai.

#[global] Instance stable_dec ai : Decision (stable ai).
Proof. unfold stable. apply _. Defined.

(** [0 <= count <= |cells|]. *)
Definition in_range (s : Sentence.t) : Prop :=
  0 ≤ Sentence.count s ≤ Z.of_nat (size (Sentence.cells s)).

#[global] Instance in_range_dec s : Decision (in_range s).
Proof. unfold in_range. apply _. Defined.

(** No live constraint mentions a cell of [known]. *)
Definition clear_of (known : gset Cell) (ai : MinesweeperAI.t) : Prop :=
  Forall (λ s, Sentence.cells s ## known) (knowledge ai).

#[global] Instance clear_of_dec known ai : Decision (clear_of known ai).
Proof. unfold clear_of. apply _. Defined.

(** No live constraint mentions a move already made or a known mine. *)
Definition settled (ai : MinesweeperAI.t) : Prop :=
  clear_of (moves_made ai ∪ mines ai) ai.

(** Number of occurrences of a sentence in a knowledge base. *)
Definition occurrences (s : Sentence.t) (k : list Sentence.t) : nat :=
  length (filter (λ x, x = s) k).

(** ** Agreement with a board *)

(** The sentence is true of the mine layout [M]: exactly [count] of its
    cells are mines. *)
Definition holds (M : gset Cell) (s : Sentence.t) : Prop :=
  Sentence.count s = Z.of_nat (size (Sentence.cells s ∩ M)).

(** Everything the knowledge base records is true of the board [g]. *)
Record consistent (g : Minesweeper.t) (ai : MinesweeperAI.t) : Prop := {
  cons_height : height ai = Minesweeper.height g;
  cons_width : width ai = Minesweeper.width g;
  cons_mines : mines ai ⊆ Minesweeper.mines g;
  cons_safes : safes ai ## Minesweeper.mines g;
  cons_moves : moves_made ai ## Minesweeper.mines g;
  cons_knowledge : Forall (holds (Minesweeper.mines g)) (knowledge ai)
}.

(** A call that tells the truth about the board [g]: an observation is made
    on a cell of the board without a mine and reports [nearby_mines]; a cell
    of the board is declared safe (a mine) only when it is. *)
Definition truthful (g : Minesweeper.t) (c : call) : Prop :=
  match c with
  | RecordObservation cell count =>
      Minesweeper.on_board g cell
      ∧ Minesweeper.is_mine g cell = false
      ∧ count = Minesweeper.nearby_mines g cell
  | DeclareSafe cell =>
      Minesweeper.on_board g cell ∧ Minesweeper.is_mine g cell = false
  | DeclareMine cell =>
      Minesweeper.on_board g cell ∧ Minesweeper.is_mine g cell = true
  end.

#[global] Instance truthful_dec g c : Decision (truthful g c).
Proof. destruct c; simpl; apply _. Defined.

(** ** Concrete sessions *)

(** A 2 x 3 board with mines at (0,0) and (0,2); the bottom row is revealed
    from the outside in. *)
Definition board23 : Minesweeper.t := Minesweeper.mk 2 3 {[ (0,0); (0,2) ]}.

Definition session23 : list call :=
  [RecordObservation (1,2) 1; RecordObservation (1,0) 1].

(** A 2 x 3 board with mines at (0,0), (0,2) and (1,2); (1,0) is revealed,
    then (1,1) is declared safe and (1,2) a mine. *)
Definition board23m : Minesweeper.t :=
  Minesweeper.mk 2 3 {[ (0,0); (0,2); (1,2) ]}.

Definition session23m : list call :=
  [RecordObservation (1,0) 1; DeclareSafe (1,1); DeclareMine (1,2)].

(** A 3 x 3 board with one mine at (0,2); the corner (0,0) is revealed. *)
Definition board33 : Minesweeper.t := Minesweeper.mk 3 3 {[ (0,2) ]}.

Definition session33 : list call := [RecordObservation (0,0) 0].

(** A 2 x 6 board with mines at (0,0), (0,2) and (0,5). *)
Definition board26 : Minesweeper.t :=
  Minesweeper.mk 2 6 {[ (0,0); (0,2); (0,5) ]}.

Definition session26 : list call :=
  [RecordObservation (1,0) 1; RecordObservation (1,1) 2].

(** A 2 x 3 board with one mine at (1,1); three of its corners are
    revealed. *)
Definition board23c : Minesweeper.t := Minesweeper.mk 2 3 {[ (1,1) ]}.

Definition session23c : list call :=
  [RecordObservation (0,0) 1; RecordObservation (0,2) 1;
   RecordObservation (1,0) 1].

(** ** Move selection and the rest of the engine *)

(** The cells on which a session called [add_knowledge], in call order. *)
Definition observed_cells (cs : list call) : list Cell :=
  omap (λ c, match c with
             | RecordObservation cell _ => Some cell
             | _ => None
             end) cs.

(** The loop of [make_safe_move] (lines 276-280) over the cells of
    [self.safes], listed in the order in which the set is iterated. *)
Fixpoint first_unmoved (ai : MinesweeperAI.t) (order : list Cell)
    : option Cell :=
  match order with
  | [] => None
  | cell :: order =>
      if decide (cell ∉ moves_made ai) then Some cell
      else first_unmoved ai order
  end.


(** [ai'] has the grid and the moves of [ai], and at least its known safe
    cells and known mines. *)
Definition extends (ai ai' : MinesweeperAI.t) : Prop :=
  height ai' = height ai ∧ width ai' = width ai
  ∧ moves_made ai' = moves_made ai
  ∧ safes ai ⊆ safes ai' ∧ mines ai ⊆ mines ai'.

(** [n] is within one row and one column of [cell]. *)
Definition near (cell n : Cell) : Prop :=
  cell.1 - 1 ≤ n.1 ≤ cell.1 + 1 ∧ cell.2 - 1 ≤ n.2 ≤ cell.2 + 1.

#[global] Instance near_dec cell n : Decision (near cell n).
Proof. unfold near. apply _. Defined.

(** The sentence that [add_knowledge] builds at lines 210-230, after the
    cell has been recorded as a move and marked safe. *)
Definition observation_sentence (cell : Cell) (count : Z)
    (ai : MinesweeperAI.t) : Sentence.t :=
  Sentence.mk (scan (mark_safe cell (record_move cell ai)) cell count).1
              (scan (mark_safe cell (record_move cell ai)) cell count).2.

(** The sentence the subset rule derives from [s1] and [s2]. *)
Definition difference (s2 s1 : Sentence.t) : Sentence.t :=
  Sentence.mk (Sentence.cells s2 ∖ Sentence.cells s1)
              (Sentence.count s2 - Sentence.count s1).

(** The knowledge base on which the subset step of [add_knowledge] works:
    after the conclusions have been drawn and the empty sentences removed. *)
Definition kept (cell : Cell) (count : Z) (ai : MinesweeperAI.t)
    : list Sentence.t :=
  knowledge (purge (conclude (observe cell count ai))).

(** The sentences the subset step derives with [p1] as [sentence1], in the
    order of the inner loop over [knowledge_copy]. *)
Definition derived_with (knowledge_copy : list (nat * Sentence.t))
    (p1 : nat * Sentence.t) : list Sentence.t :=
  (λ p2, difference p2.2 p1.2)
    <$> filter (λ p2, p1.1 ≠ p2.1
                      ∧ Sentence.cells p1.2 ⊆ Sentence.cells p2.2)
               knowledge_copy.

(** All the sentences the subset step derives from a knowledge base. *)
Definition derived (k : list Sentence.t) : list Sentence.t :=
  imap (λ i s, (i, s)) k ≫= derived_with (imap (λ i s, (i, s)) k).

(** A property of sentences that survives the removal of cells. *)
Definition hereditary (Q : Sentence.t → Prop) : Prop :=
  ∀ s s', Sentence.cells s' ⊆ Sentence.cells s → Q s → Q s'.

(** The sentence has at most eight cells, all of them on an [h] x [w]
    grid. *)
Definition compact (h w : Z) (s : Sentence.t) : Prop :=
  (size (Sentence.cells s) ≤ 8)%nat
  ∧ ∀ n, n ∈ Sentence.cells s → 0 ≤ n.1 < h ∧ 0 ≤ n.2 < w.

(** The cells of an [h] x [w] grid within one row and one column of [cell],
    other than [cell]. *)
Definition neighbours (h w : Z) (cell : Cell) : gset Cell :=
  list_to_set
    (filter (λ n, n ≠ cell ∧ 0 ≤ n.1 < h ∧ 0 ≤ n.2 < w) (window cell)).

(** ** Random choices

    [random.randrange] is not modelled: the values it returns are given as a
    list of draws, consumed from the left.  A loop that is still running
    when the draws are used up has not returned. *)
Inductive exception : Type :=
  | ValueError
  | IndexError.

Inductive drawn (A : Type) : Type :=
  | Done (a : A)
  | NoMoreDraws
  | Raised (e : exception).

Arguments Done {A} a.
Arguments NoMoreDraws {A}.
Arguments Raised {A} e.

(** The cells of an [h] x [w] grid, row by row. *)
Definition grid (h w : Z) : list Cell :=
  i ← range 0 h; j ← range 0 w; [(i, j)].

Definition board_cells (h w : Z) : gset Cell := list_to_set (grid h w).

(** The loop [while True:] of [make_random_move] (lines 296-300); every draw
    is a pair [(random.randrange(self.height),
    random.randrange(self.width))]. *)
Fixpoint sample (ai : MinesweeperAI.t) (draws : list Cell) : option Cell :=
  match draws with
  | [] => None
  | cell :: draws =>
      if decide ((cell ∉ moves_made ai) ∧ (cell ∉ mines ai)) then Some cell
      else sample ai draws
  end.

(** [make_random_move]; [random.randrange(n)] raises [ValueError] unless
    [0 < n]. *)
Definition make_random_move (draws : list Cell) (ai : MinesweeperAI.t)
    : drawn (option Cell) :=
  if decide (Z.of_nat (size (moves_made ai)) + Z.of_nat (size (mines ai))
             = height ai * width ai)
  then Done None
  else if decide (height ai ≤ 0 ∨ width ai ≤ 0) then Raised ValueError
  else match sample ai draws with
       | Some cell => Done (Some cell)
       | None => NoMoreDraws
       end.

(** ** class Minesweeper with its grid of booleans

    The board is the Python list of rows [self.board]; every row is a list
    object of its own. *)

(** [l[i]] for a Python list: a negative index counts from the end, and
    [None] stands for [IndexError]. *)
Definition py_index {A : Type} (l : list A) (i : Z) : option A :=
  if decide (0 ≤ i) then l !! Z.to_nat i
  else if decide (- Z.of_nat (length l) ≤ i)
       then l !! Z.to_nat (Z.of_nat (length l) + i)
       else None.

(** [l[i] = x]. *)
Definition py_store {A : Type} (l : list A) (i : Z) (x : A)
    : option (list A) :=
  if decide (0 ≤ i) then
    if decide (i < Z.of_nat (length l)) then Some (<[Z.to_nat i := x]> l)
    else None
  else if decide (- Z.of_nat (length l) ≤ i)
       then Some (<[Z.to_nat (Z.of_nat (length l) + i) := x]> l)
       else None.

Module Game.

Record t : Type := mk {
  height : Z;
  width : Z;
  mines : gset Cell;
  board : list (list bool);
  mines_found : gset Cell
}.

(** Lines 19-24: the field without mines. *)
Definition empty_row (width : Z) : list bool :=
  foldl (λ row _, row ++ [false]) [] (range 0 width).

Definition empty_board (height width : Z) : list (list bool) :=
  foldl (λ board _, board ++ [empty_row width]) [] (range 0 height).

(** [self.board[i][j]]. *)
Definition read (board : list (list bool)) (cell : Cell) : option bool :=
  row ← py_index board cell.1; py_index row cell.2.

(** [self.board[i][j] = True]: the row object is updated in place. *)
Definition mark (board : list (list bool)) (cell : Cell)
    : option (list (list bool)) :=
  row ← py_index board cell.1;
  row' ← py_store row cell.2 true;
  py_store board cell.1 row'.

(** Lines 27-32: [while len(self.mines) != mines:], one draw per turn. *)
Fixpoint place (height width wanted : Z) (draws : list Cell)
    (mines : gset Cell) (board : list (list bool))
    : drawn (gset Cell * list (list bool)) :=
  if decide (Z.of_nat (size mines) = wanted) then Done (mines, board)
  else if decide (height ≤ 0 ∨ width ≤ 0) then Raised ValueError
  else match draws with
       | [] => NoMoreDraws
       | cell :: draws =>
           match read board cell with
           | None => Raised IndexError
           | Some true => place height width wanted draws mines board
           | Some false =>
               match mark board cell with
               | None => Raised IndexError
               | Some board' =>
                   place height width wanted draws ({[cell]} ∪ mines) board'
               end
           end
       end.

(** [__init__(height, width, mines)]. *)
Definition init (height width wanted : Z) (draws : list Cell) : drawn t :=
  match place height width wanted draws ∅ (empty_board height width) with
  | Done (mines, board) => Done (mk height width mines board ∅)
  | NoMoreDraws => NoMoreDraws
  | Raised e => Raised e
  end.

Definition is_mine (g : t) (cell : Cell) : option bool :=
  read (board g) cell.

(** Body of the loops of [nearby_mines] (lines 67-77); [None] once an index
    is out of range. *)
Definition nearby_step (g : t) (cell : Cell) (count : option Z) (n : Cell)
    : option Z :=
  count ← count;
  if decide (n = cell) then Some count
  else if decide (0 ≤ n.1 < height g ∧ 0 ≤ n.2 < width g)
       then b ← read (board g) n; Some (if b : bool then count + 1 else count)
       else Some count.

Definition nearby_mines (g : t) (cell : Cell) : option Z :=
  foldl (nearby_step g cell) (Some 0) (window cell).

Definition won (g : t) : bool := bool_decide (mines_found g = mines g).

(** The game as the knowledge engine's proofs see it. *)
Definition view (g : t) : Minesweeper.t :=
  Minesweeper.mk (height g) (width g) (mines g).

(** The rows and columns are as many as announced, the grid is [True]
    exactly at the mines, and every mine is on the grid. *)
Definition agrees (height width : Z) (mines : gset Cell)
    (board : list (list bool)) : Prop :=
  length board = Z.to_nat height
  ∧ Forall (λ row, length row = Z.to_nat width) board
  ∧ set_Forall (λ c, read board c = Some (bool_decide (c ∈ mines)))
               (board_cells height width)
  ∧ mines ⊆ board_cells height width.

#[global] Instance agrees_dec height width mines board :
  Decision (agrees height width mines board).
Proof. unfold agrees. apply _. Defined.

Definition well_formed (g : t) : Prop :=
  agrees (height g) (width g) (mines g) (board g).

#[global] Instance well_formed_dec g : Decision (well_formed g).
Proof. unfold well_formed. apply _. Defined.

End Game.

(** A call that passes on what the game answers: an observation of a cell
    of the board that [is_mine] denies, with the count [nearby_mines]
    gives. *)
Definition answered (g : Game.t) (c : call) : Prop :=
  match c with
  | RecordObservation cell count =>
      cell ∈ board_cells (Game.height g) (Game.width g)
      ∧ Game.is_mine g cell = Some false
      ∧ Game.nearby_mines g cell = Some count
  | _ => False
  end.

#[global] Instance answered_dec g c : Decision (answered g c).
Proof. destruct c; simpl; apply _. Defined.

(** A 2 x 2 game with one mine at (0,1), and the session that reveals its
    bottom row. *)
Definition game22 : Game.t :=
  Game.mk 2 2 {[ (0,1) ]} [[false; true]; [false; false]] ∅.


(** The knowledge base of [a] is [k0] with cells removed, and every cell
    removed is in [safes] or in [mines]. *)
Definition tracks (k0 : list Sentence.t) (a : MinesweeperAI.t) : Prop :=
  ∀ i s0, k0 !! i = Some s0 →
    ∃ s, knowledge a !! i = Some s
         ∧ Sentence.cells s ⊆ Sentence.cells s0
         ∧ Sentence.cells s0 ⊆ Sentence.cells s ∪ safes a ∪ mines a.

(** The whole bottom row of [board23] revealed. *)
Definition session23_row : list call :=
  session23 ++ [RecordObservation (1,1) 2].

(** * Proofs *)

(** Closed decidable goals are settled by evaluation. *)
Ltac by_evaluation := apply (bool_decide_unpack _); vm_compute; exact I.

(** ** The loop of [add_knowledge] *)

Lemma closure_body_returns ai :
  closure_body ai = Return (closure_pass ai).1 (closure_pass ai).2.
Proof. reflexivity. Qed.

Lemma while_true_closure_body fuel ai :
  while_true (S fuel) closure_body ai = Some (closure_pass ai).
Proof.
  cbn [while_true]. rewrite closure_body_returns.
  by destruct (closure_pass ai).
Qed.

Lemma add_knowledge_fuel_S fuel cell count ai :
  add_knowledge_fuel (S fuel) cell count ai
  = Some (add_knowledge cell count ai).
Proof. apply while_true_closure_body. Qed.

Lemma step_fuel_S fuel c ai : step_fuel (S fuel) c ai = Some (step c ai).
Proof.
  destruct c as [cell count | cell | cell]; cbn [step_fuel step];
    [| reflexivity ..].
  by rewrite add_knowledge_fuel_S.
Qed.

(** C9.  Every [RecordObservation] call terminates: on every state and for
    every observation the [while True:] loop of [add_knowledge] leaves the
    function during its first turn, so one turn of loop budget is enough for
    each call of any finite call sequence, on a grid of any size. *)
Theorem record_observation_terminates (fuel : nat) (cs : list call)
    (cell : Cell) (count : Z) (ai : MinesweeperAI.t) :
  add_knowledge_fuel (S fuel) cell count ai
    = Some (add_knowledge cell count ai)
  ∧ run_fuel (S fuel) cs ai = Some (run cs ai).
Proof.
  split; [apply add_knowledge_fuel_S |].
  revert ai. induction cs as [| c cs IH]; intros ai; [done |].
  cbn [run_fuel]. rewrite step_fuel_S. apply IH.
Qed.

(** ** Frame of the two declarations *)

(** C10.  [DeclareSafe] (mark_safe) leaves [moves_made] and [mines] as they
    were, [DeclareMine] (mark_mine) leaves [moves_made] and [safes] as they
    were; neither changes the grid size or the number of live constraints:
    only the named set grows by the cell and the sentences are reduced in
    place. *)
Theorem declare_frame (cell : Cell) (ai : MinesweeperAI.t) :
  (moves_made (mark_safe cell ai) = moves_made ai
   ∧ mines (mark_safe cell ai) = mines ai
   ∧ safes (mark_safe cell ai) = {[cell]} ∪ safes ai
   ∧ height (mark_safe cell ai) = height ai
   ∧ width (mark_safe cell ai) = width ai
   ∧ knowledge (mark_safe cell ai)
     = Sentence.mark_safe cell <$> knowledge ai)
  ∧ (moves_made (mark_mine cell ai) = moves_made ai
     ∧ safes (mark_mine cell ai) = safes ai
     ∧ mines (mark_mine cell ai) = {[cell]} ∪ mines ai
     ∧ height (mark_mine cell ai) = height ai
     ∧ width (mark_mine cell ai) = width ai
     ∧ knowledge (mark_mine cell ai)
       = Sentence.mark_mine cell <$> knowledge ai).
Proof. repeat split. Qed.

(** ** Sentences that are true of a mine layout *)

Section Holds.
Context (M : gset Cell).

Lemma holds_in_range s : holds M s → in_range s.
Proof.
  unfold holds, in_range. intros ->. split; [lia |].
  apply inj_le, subseteq_size. set_solver.
Qed.

Lemma holds_mark_safe c s : c ∉ M → holds M s → holds M (Sentence.mark_safe c s).
Proof.
  unfold holds, Sentence.mark_safe. intros Hc Hs.
  case_decide; [| done]. cbn.
  by replace ((Sentence.cells s ∖ {[c]}) ∩ M) with (Sentence.cells s ∩ M)
    by set_solver.
Qed.

Lemma holds_mark_mine c s : c ∈ M → holds M s → holds M (Sentence.mark_mine c s).
Proof.
  unfold holds, Sentence.mark_mine. intros Hc Hs.
  case_decide as Hin; [| done]. cbn. rewrite Hs.
  assert (Sentence.cells s ∩ M
          = {[c]} ∪ (Sentence.cells s ∖ {[c]}) ∩ M) as ->.
  { apply set_eq. intros x. destruct (decide (x = c)); set_solver. }
  rewrite size_union by set_solver. rewrite size_singleton. lia.
Qed.

Lemma known_safes_disjoint s : holds M s → Sentence.known_safes s ## M.
Proof.
  unfold holds, Sentence.known_safes. intros Hs.
  case_decide as H0; [| set_solver].
  assert (size (Sentence.cells s ∩ M) = 0%nat) as Hz by lia.
  apply size_empty_inv in Hz. set_solver.
Qed.

Lemma known_mines_subseteq s : holds M s → Sentence.known_mines s ⊆ M.
Proof.
  unfold holds, Sentence.known_mines. intros Hs.
  case_decide as Hall; [| set_solver].
  assert (Sentence.cells s ∩ M ≡ Sentence.cells s) as Heq.
  { apply set_subseteq_size_equiv; [set_solver | lia]. }
  set_solver.
Qed.

Lemma holds_difference s1 s2 :
  Sentence.cells s1 ⊆ Sentence.cells s2 → holds M s1 → holds M s2 →
  holds M (Sentence.mk (Sentence.cells s2 ∖ Sentence.cells s1)
                       (Sentence.count s2 - Sentence.count s1)).
Proof.
  unfold holds. intros Hsub H1 H2. cbn. rewrite H1, H2.
  assert (Sentence.cells s2 ∩ M
          = (Sentence.cells s1 ∩ M)
            ∪ (Sentence.cells s2 ∖ Sentence.cells s1) ∩ M) as ->.
  { apply set_eq. intros x.
    destruct (decide (x ∈ Sentence.cells s1)); set_solver. }
  rewrite size_union by set_solver. lia.
Qed.

End Holds.

(** ** Knowledge bases that agree with a board *)

Section Consistent.
Context (g : Minesweeper.t).

#[local] Abbreviation M := (Minesweeper.mines g).

Lemma consistent_init :
  consistent g (init (Minesweeper.height g) (Minesweeper.width g)).
Proof. split; cbn; [done | done | set_solver .. | constructor]. Qed.

Lemma consistent_set_knowledge k ai :
  Forall (holds M) k → consistent g ai → consistent g (set_knowledge k ai).
Proof. intros Hk []. by split. Qed.

Lemma consistent_mark_safe c ai :
  c ∉ M → consistent g ai → consistent g (mark_safe c ai).
Proof.
  intros Hc []. split; cbn; [done | done | done | set_solver | done |].
  apply Forall_fmap. eapply Forall_impl; [done |].
  intros s Hs. by apply holds_mark_safe.
Qed.

Lemma consistent_mark_mine c ai :
  c ∈ M → consistent g ai → consistent g (mark_mine c ai).
Proof.
  intros Hc []. split; cbn; [done | done | set_solver | done | done |].
  apply Forall_fmap. eapply Forall_impl; [done |].
  intros s Hs. by apply holds_mark_mine.
Qed.

Lemma consistent_record_move c ai :
  c ∉ M → consistent g ai → consistent g (record_move c ai).
Proof. intros Hc []. split; cbn; [done | done | done | done | set_solver | done]. Qed.

Lemma consistent_mark_safe_list l ai :
  (∀ c, c ∈ l → c ∉ M) → consistent g ai →
  consistent g (foldl (λ a c, mark_safe c a) ai l).
Proof.
  revert ai. induction l as [| c l IH]; intros ai Hl Hai; [done |].
  cbn. apply IH.
  - intros c' Hc'. apply Hl. by right.
  - apply consistent_mark_safe; [| done]. apply Hl. by left.
Qed.

Lemma consistent_mark_mine_list l ai :
  (∀ c, c ∈ l → c ∈ M) → consistent g ai →
  consistent g (foldl (λ a c, mark_mine c a) ai l).
Proof.
  revert ai. induction l as [| c l IH]; intros ai Hl Hai; [done |].
  cbn. apply IH.
  - intros c' Hc'. apply Hl. by right.
  - apply consistent_mark_mine; [| done]. apply Hl. by left.
Qed.

Lemma consistent_lookup ai i s :
  consistent g ai → knowledge ai !! i = Some s → holds M s.
Proof.
  intros [] Hi. eapply Forall_lookup_1; eauto.
Qed.

Lemma consistent_conclude_at i ai :
  consistent g ai → consistent g (conclude_at i ai).
Proof.
  intros Hai. unfold conclude_at.
  destruct (knowledge ai !! i) as [s |] eqn:Hi; [| done].
  assert (consistent g (mark_safe_all (Sentence.known_safes s) ai)) as Hai1.
  { apply consistent_mark_safe_list; [| done].
    intros c Hc%elem_of_elements.
    pose proof (known_safes_disjoint M s (consistent_lookup _ _ _ Hai Hi)).
    set_solver. }
  cbn zeta.
  destruct (knowledge (mark_safe_all _ ai) !! i) as [s' |] eqn:Hi'; [| done].
  apply consistent_mark_mine_list; [| done].
  intros c Hc%elem_of_elements.
  pose proof (known_mines_subseteq M s' (consistent_lookup _ _ _ Hai1 Hi')).
  set_solver.
Qed.

Lemma consistent_conclude_list (l : list nat) ai :
  consistent g ai → consistent g (foldl (λ a i, conclude_at i a) ai l).
Proof.
  revert ai. induction l as [| i l IH]; intros ai Hai; [done |].
  cbn. by apply IH, consistent_conclude_at.
Qed.

Lemma consistent_conclude ai : consistent g ai → consistent g (conclude ai).
Proof. apply consistent_conclude_list. Qed.

Lemma consistent_purge ai : consistent g ai → consistent g (purge ai).
Proof.
  intros Hai. apply consistent_set_knowledge; [| done].
  destruct Hai as [_ _ _ _ _ Hk]. rewrite Forall_forall in Hk |- *.
  intros s [_ Hs]%list_elem_of_filter. by apply Hk.
Qed.

Lemma holds_infer_step p1 acc p2 :
  holds M p1.2 → holds M p2.2 → Forall (holds M) acc.1 →
  Forall (holds M) (infer_step p1 acc p2).1.
Proof.
  intros H1 H2 Hacc. unfold infer_step.
  case_decide; [done |]. case_decide; [| done]. cbn.
  apply Forall_app. split; [done |].
  constructor; [| constructor]. by apply holds_difference.
Qed.

Lemma holds_infer_inner p1 (l : list (nat * Sentence.t)) acc :
  holds M p1.2 → Forall (λ p, holds M p.2) l → Forall (holds M) acc.1 →
  Forall (holds M) (foldl (infer_step p1) acc l).1.
Proof.
  intros H1. revert acc. induction l as [| p2 l IH]; intros acc Hl Hacc; [done |].
  inversion_clear Hl. cbn. apply IH; [done |]. by apply holds_infer_step.
Qed.

Lemma holds_infer_outer (l1 l2 : list (nat * Sentence.t)) acc :
  Forall (λ p, holds M p.2) l1 → Forall (λ p, holds M p.2) l2 →
  Forall (holds M) acc.1 →
  Forall (holds M)
    (foldl (λ acc p1, foldl (infer_step p1) acc l2) acc l1).1.
Proof.
  revert acc. induction l1 as [| p1 l1 IH]; intros acc Hl1 Hl2 Hacc; [done |].
  inversion_clear Hl1. cbn. apply IH; [done | done |].
  by apply holds_infer_inner.
Qed.

Lemma consistent_infer new ai :
  consistent g ai → consistent g (infer new ai).1.
Proof.
  intros Hai. unfold infer. cbn.
  apply consistent_set_knowledge; [| done].
  assert (Forall (λ p : nat * Sentence.t, holds M p.2)
            (imap (λ i s, (i, s)) (knowledge ai))) as Hcopy.
  { apply Forall_forall. intros p (i & s & -> & Hi)%elem_of_lookup_imap.
    cbn. by eapply consistent_lookup. }
  apply holds_infer_outer; [done | done |]. by destruct Hai.
Qed.

Lemma consistent_closure_pass ai :
  consistent g ai → consistent g (closure_pass ai).1.
Proof.
  intros Hai. unfold closure_pass.
  by apply consistent_infer, consistent_purge, consistent_conclude.
Qed.

End Consistent.

(** ** The neighbour loop *)

Lemma range_window x : range (x - 1) (x + 2) = [x - 1; x; x + 1].
Proof.
  unfold range. replace (x + 2 - (x - 1)) with 3 by lia.
  change (Z.to_nat 3) with 3%nat. cbn.
  f_equal; [lia |]. f_equal; [lia |]. f_equal; lia.
Qed.

Lemma window_eq (cell : Cell) :
  window cell
  = [(cell.1 - 1, cell.2 - 1); (cell.1 - 1, cell.2); (cell.1 - 1, cell.2 + 1);
     (cell.1, cell.2 - 1); (cell.1, cell.2); (cell.1, cell.2 + 1);
     (cell.1 + 1, cell.2 - 1); (cell.1 + 1, cell.2); (cell.1 + 1, cell.2 + 1)].
Proof. unfold window. by rewrite !range_window. Qed.

Lemma NoDup_window (cell : Cell) : NoDup (window cell).
Proof.
  rewrite window_eq.
  repeat (apply NoDup_cons; split;
          [rewrite ?elem_of_cons, elem_of_nil;
           intros Hin; decompose [or] Hin; simplify_eq; lia |]).
  apply NoDup_nil_2.
Qed.

Section Scan.
Context (g : Minesweeper.t) (ai : MinesweeperAI.t) (cell : Cell).
Context (Hai : consistent g ai).

#[local] Abbreviation Mg := (Minesweeper.mines g).

Lemma scan_step_cells acc n :
  (scan_step ai cell acc n).1 ⊆ {[n]} ∪ acc.1.
Proof. unfold scan_step. repeat case_decide; set_solver. Qed.

Lemma scan_step_balance acc k n :
  n ∉ acc.1 →
  (scan_step ai cell acc n).2
    - Z.of_nat (size ((scan_step ai cell acc n).1 ∩ Mg))
    + Minesweeper.nearby_step g cell k n
  = acc.2 - Z.of_nat (size (acc.1 ∩ Mg)) + k.
Proof.
  intros Hn. destruct Hai as [Hh Hw Hmines _ Hmoves _].
  unfold scan_step, Minesweeper.nearby_step, Minesweeper.is_mine.
  case_decide as Hcell; [done |].
  assert (in_bounds ai n ↔ Minesweeper.on_board g n) as Hiff
    by (unfold in_bounds, Minesweeper.on_board; by rewrite Hh, Hw).
  destruct (decide (in_bounds ai n)) as [Hb | Hb];
    destruct (decide (Minesweeper.on_board g n)) as [Hb' | Hb'];
    try (exfalso; tauto); [| done].
  case_decide as Hfree.
  - cbn. case_bool_decide as HM.
    + assert (({[n]} ∪ acc.1) ∩ Mg = {[n]} ∪ acc.1 ∩ Mg) as -> by set_solver.
      rewrite size_union by set_solver. rewrite size_singleton. lia.
    + by assert (({[n]} ∪ acc.1) ∩ Mg = acc.1 ∩ Mg) as -> by set_solver.
  - case_decide as Hmine; cbn.
    + rewrite bool_decide_eq_true_2 by set_solver. lia.
    + assert (n ∈ moves_made ai) as Hmoved.
      { destruct (decide (n ∈ moves_made ai)); [done | tauto]. }
      rewrite bool_decide_eq_false_2 by set_solver. done.
Qed.

Lemma scan_fold_balance l acc k :
  NoDup l → (∀ n, n ∈ l → n ∉ acc.1) →
  (foldl (scan_step ai cell) acc l).2
    - Z.of_nat (size ((foldl (scan_step ai cell) acc l).1 ∩ Mg))
    + foldl (Minesweeper.nearby_step g cell) k l
  = acc.2 - Z.of_nat (size (acc.1 ∩ Mg)) + k.
Proof.
  revert acc k. induction l as [| n l IH]; intros acc k Hnd Hfresh; [done |].
  apply NoDup_cons in Hnd as [Hn Hnd]. cbn [foldl].
  rewrite IH; [| done |].
  - apply scan_step_balance, Hfresh. by left.
  - intros m Hm Hin. apply scan_step_cells in Hin.
    apply elem_of_union in Hin as [->%elem_of_singleton | Hin]; [done |].
    eapply Hfresh; [| done]. by right.
Qed.

Lemma holds_scan :
  holds Mg (Sentence.mk (scan ai cell (Minesweeper.nearby_mines g cell)).1
                        (scan ai cell (Minesweeper.nearby_mines g cell)).2).
Proof.
  unfold holds, scan. cbn [Sentence.cells Sentence.count].
  pose proof (scan_fold_balance (window cell)
                (∅, Minesweeper.nearby_mines g cell) 0
                (NoDup_window cell)) as Hbal.
  cbn [fst snd] in Hbal. unfold Minesweeper.nearby_mines in *.
  assert ((∅ : gset Cell) ∩ Mg = ∅) as Hempty by set_solver.
  rewrite Hempty, size_empty in Hbal.
  specialize (Hbal ltac:(set_solver)). lia.
Qed.

End Scan.

(** ** Truthful sessions keep the knowledge base true *)

Section Truthful.
Context (g : Minesweeper.t).

Lemma not_mine_iff cell :
  Minesweeper.is_mine g cell = false ↔ cell ∉ Minesweeper.mines g.
Proof. unfold Minesweeper.is_mine. apply bool_decide_eq_false. Qed.

Lemma is_mine_iff cell :
  Minesweeper.is_mine g cell = true ↔ cell ∈ Minesweeper.mines g.
Proof. unfold Minesweeper.is_mine. apply bool_decide_eq_true. Qed.

Lemma consistent_add_sentence s ai :
  holds (Minesweeper.mines g) s → consistent g ai →
  consistent g (add_sentence s ai).
Proof.
  intros Hs Hai. unfold add_sentence. case_decide; [done |].
  apply consistent_set_knowledge; [| done].
  apply Forall_app. split; [by destruct Hai | by repeat constructor].
Qed.

Lemma consistent_observe cell ai :
  cell ∉ Minesweeper.mines g → consistent g ai →
  consistent g (observe cell (Minesweeper.nearby_mines g cell) ai).
Proof.
  intros Hcell Hai.
  assert (consistent g (mark_safe cell (record_move cell ai))) as Hai'
    by by apply consistent_mark_safe, consistent_record_move.
  unfold observe. cbn zeta. case_decide; [| done].
  apply consistent_add_sentence; [| done]. by apply holds_scan.
Qed.

Lemma consistent_step c ai :
  truthful g c → consistent g ai → consistent g (step c ai).
Proof.
  destruct c as [cell count | cell | cell]; cbn [truthful step].
  - intros (_ & Hcell%not_mine_iff & ->) Hai. unfold add_knowledge.
    by apply consistent_closure_pass, consistent_observe.
  - intros [_ Hcell%not_mine_iff]. by apply consistent_mark_safe.
  - intros [_ Hcell%is_mine_iff]. by apply consistent_mark_mine.
Qed.

Lemma consistent_run cs ai :
  Forall (truthful g) cs → consistent g ai → consistent g (run cs ai).
Proof.
  revert ai. induction cs as [| c cs IH]; intros ai Hcs Hai; [done |].
  inversion_clear Hcs. cbn. apply IH; [done |]. by apply consistent_step.
Qed.

End Truthful.

(** ** Range of the counts *)

(** C7, as stated, fails: after an observation of one mine next to the
    corner (0,0) of a 3 x 3 grid, declaring two of the three neighbours mines
    drives the count of the remaining constraint to -1. *)
Lemma count_leaves_range :
  ¬ Forall in_range
      (knowledge
         (run [RecordObservation (0,0) 1; DeclareMine (0,1); DeclareMine (1,0)]
              (init 3 3))).
Proof. by_evaluation. Qed.

(** C7, amended.  From a fresh knowledge base of the board's size, after
    every call of a session that is truthful about the board, every live
    constraint satisfies [0 <= count <= |cells|]. *)
Theorem truthful_counts_in_range (g : Minesweeper.t) (cs : list call) :
  Forall (truthful g) cs →
  Forall in_range
    (knowledge (run cs (init (Minesweeper.height g) (Minesweeper.width g)))).
Proof.
  intros Hcs.
  destruct (consistent_run g cs _ Hcs (consistent_init g)) as [_ _ _ _ _ Hk].
  eapply Forall_impl; [done |]. apply holds_in_range.
Qed.

Lemma truthful_counts_in_range_witness :
  Forall (truthful board23) (session23 ++ [RecordObservation (1,1) 2])
  ∧ Forall in_range
      (knowledge (run (session23 ++ [RecordObservation (1,1) 2]) (init 2 3))).
Proof.
  split; [by_evaluation |].
  apply (truthful_counts_in_range board23). by_evaluation.
Defined.

(** ** Safe cells and mines *)

(** C8, as stated, fails: nothing stops a cell declared safe from being
    declared a mine afterwards. *)
Lemma safe_then_mine :
  safes (run [DeclareSafe (0,0); DeclareMine (0,0)] (init 3 3))
  ∩ mines (run [DeclareSafe (0,0); DeclareMine (0,0)] (init 3 3)) ≠ ∅.
Proof. by_evaluation. Qed.

(** C8, amended.  From a fresh knowledge base of the board's size, after
    every call of a session that is truthful about the board, no cell is both
    in [safes] and in [mines]. *)
Theorem truthful_safes_mines_disjoint (g : Minesweeper.t) (cs : list call) :
  Forall (truthful g) cs →
  safes (run cs (init (Minesweeper.height g) (Minesweeper.width g)))
  ∩ mines (run cs (init (Minesweeper.height g) (Minesweeper.width g))) = ∅.
Proof.
  intros Hcs.
  destruct (consistent_run g cs _ Hcs (consistent_init g))
    as [_ _ Hmines Hsafes _ _].
  set_solver.
Qed.

Lemma truthful_safes_mines_disjoint_witness :
  Forall (truthful board23m) (session23m ++ [RecordObservation (1,1) 3])
  ∧ safes (run (session23m ++ [RecordObservation (1,1) 3]) (init 2 3))
    ∩ mines (run (session23m ++ [RecordObservation (1,1) 3]) (init 2 3)) = ∅.
Proof.
  split; [by_evaluation |].
  apply (truthful_safes_mines_disjoint board23m). by_evaluation.
Defined.

(** ** What the neighbour loop collects *)

Lemma scan_fold_cells ai cell l acc n :
  n ∈ (foldl (scan_step ai cell) acc l).1
  ↔ n ∈ acc.1
    ∨ (n ∈ l ∧ n ≠ cell ∧ in_bounds ai n
       ∧ (n ∉ moves_made ai) ∧ (n ∉ mines ai)).
Proof.
  revert acc. induction l as [| m l IH]; intros acc; cbn [foldl].
  - rewrite elem_of_nil. tauto.
  - rewrite IH, elem_of_cons. unfold scan_step.
    repeat case_decide; cbn [fst]; rewrite ?elem_of_union, ?elem_of_singleton;
      naive_solver.
Qed.

(** The cell set of the observation sentence: the in-bounds neighbours that
    are neither moves already made nor known mines. *)
Lemma scan_cells ai cell count n :
  n ∈ (scan ai cell count).1
  ↔ n ∈ window cell ∧ n ≠ cell ∧ in_bounds ai n
    ∧ (n ∉ moves_made ai) ∧ (n ∉ mines ai).
Proof. unfold scan. rewrite scan_fold_cells. set_solver. Qed.

Lemma scan_fold_count ai cell l acc :
  (foldl (scan_step ai cell) acc l).2
  = acc.2
    - Z.of_nat
        (length (filter (λ n, n ≠ cell ∧ in_bounds ai n ∧ n ∈ mines ai) l)).
Proof.
  revert acc. induction l as [| m l IH]; intros acc; cbn [foldl].
  - cbn. lia.
  - rewrite IH, filter_cons. unfold scan_step.
    repeat case_decide; cbn [fst snd length]; try lia; exfalso; tauto.
Qed.

(** The count of the observation sentence: the reported count, less one for
    every in-bounds neighbour that is a known mine. *)
Lemma scan_count ai cell count :
  (scan ai cell count).2
  = count
    - Z.of_nat
        (length (filter (λ n, n ≠ cell ∧ in_bounds ai n ∧ n ∈ mines ai)
                        (window cell))).
Proof. apply scan_fold_count. Qed.

(** ** Marking a set of cells does not depend on the iteration order *)

Lemma sentence_mark_safe_eq c s :
  Sentence.mark_safe c s
  = Sentence.mk (Sentence.cells s ∖ {[c]}) (Sentence.count s).
Proof.
  unfold Sentence.mark_safe. case_decide; [done |].
  destruct s as [cs n]. cbn in *. f_equal. set_solver.
Qed.

Lemma sentence_mark_mine_eq c s :
  Sentence.mark_mine c s
  = Sentence.mk (Sentence.cells s ∖ {[c]})
      (Sentence.count s - Z.of_nat (size (Sentence.cells s ∩ {[c]}))).
Proof.
  unfold Sentence.mark_mine. case_decide as Hin.
  - assert (Sentence.cells s ∩ {[c]} = {[c]}) as -> by set_solver.
    by rewrite size_singleton.
  - assert (Sentence.cells s ∩ {[c]} = ∅) as -> by set_solver.
    rewrite size_empty. destruct s as [cs n]. cbn in *.
    f_equal; [set_solver | lia].
Qed.

Lemma mark_safe_list_eq l ai :
  foldl (λ a c, mark_safe c a) ai l
  = MinesweeperAI.mk (height ai) (width ai) (moves_made ai) (mines ai)
      (list_to_set l ∪ safes ai)
      ((λ s, Sentence.mk (Sentence.cells s ∖ list_to_set l)
                         (Sentence.count s)) <$> knowledge ai).
Proof.
  revert ai. induction l as [| c l IH]; intros ai.
  - destruct ai as [h w mv mn sf k]. cbn. f_equal; [set_solver |].
    rewrite <- (list_fmap_id k) at 1. apply list_fmap_ext.
    intros _ [cs n] _. cbn. f_equal. set_solver.
  - cbn [foldl]. rewrite IH. unfold mark_safe. cbn. f_equal; [set_solver |].
    rewrite <- list_fmap_compose. apply list_fmap_ext.
    intros _ s _. cbn. rewrite sentence_mark_safe_eq. cbn.
    f_equal. set_solver.
Qed.

Lemma mark_mine_list_eq l ai :
  foldl (λ a c, mark_mine c a) ai l
  = MinesweeperAI.mk (height ai) (width ai) (moves_made ai)
      (list_to_set l ∪ mines ai) (safes ai)
      ((λ s, Sentence.mk (Sentence.cells s ∖ list_to_set l)
               (Sentence.count s
                - Z.of_nat (size (Sentence.cells s ∩ list_to_set l))))
         <$> knowledge ai).
Proof.
  revert ai. induction l as [| c l IH]; intros ai.
  - destruct ai as [h w mv mn sf k]. cbn. f_equal; [set_solver |].
    rewrite <- (list_fmap_id k) at 1. apply list_fmap_ext.
    intros _ [cs n] _. cbn.
    assert (cs ∩ (∅ : gset Cell) = ∅) as -> by set_solver.
    rewrite size_empty. f_equal; [set_solver | lia].
  - cbn [foldl]. rewrite IH. unfold mark_mine. cbn. f_equal; [set_solver |].
    rewrite <- list_fmap_compose. apply list_fmap_ext.
    intros _ s _. cbn. rewrite sentence_mark_mine_eq. cbn.
    f_equal; [set_solver |].
    assert (Sentence.cells s ∩ ({[c]} ∪ list_to_set l)
            = Sentence.cells s ∩ {[c]}
              ∪ (Sentence.cells s ∖ {[c]}) ∩ list_to_set l) as ->.
    { apply set_eq. intros x. destruct (decide (x = c)); set_solver. }
    pose proof (size_union (C:=gset Cell) (Sentence.cells s ∩ {[c]})
                  ((Sentence.cells s ∖ {[c]}) ∩ list_to_set l)
                  ltac:(set_solver)) as Hsize.
    lia.
Qed.

(** The effect of [for cell in cells: self.mark_safe(cell)]. *)
Lemma mark_safe_all_eq cs ai :
  mark_safe_all cs ai
  = MinesweeperAI.mk (height ai) (width ai) (moves_made ai) (mines ai)
      (cs ∪ safes ai)
      ((λ s, Sentence.mk (Sentence.cells s ∖ cs) (Sentence.count s))
         <$> knowledge ai).
Proof.
  unfold mark_safe_all. by rewrite mark_safe_list_eq, list_to_set_elements_L.
Qed.

(** The effect of [for cell in cells: self.mark_mine(cell)]. *)
Lemma mark_mine_all_eq cs ai :
  mark_mine_all cs ai
  = MinesweeperAI.mk (height ai) (width ai) (moves_made ai)
      (cs ∪ mines ai) (safes ai)
      ((λ s, Sentence.mk (Sentence.cells s ∖ cs)
               (Sentence.count s - Z.of_nat (size (Sentence.cells s ∩ cs))))
         <$> knowledge ai).
Proof.
  unfold mark_mine_all. by rewrite mark_mine_list_eq, list_to_set_elements_L.
Qed.

(** ** What the live constraints are kept clear of *)

Lemma settled_init h w : settled (init h w).
Proof. constructor. Qed.

Lemma settled_mark_safe c ai : settled ai → settled (mark_safe c ai).
Proof.
  unfold settled, clear_of. cbn. intros Hai. apply Forall_fmap.
  eapply Forall_impl; [done |]. intros s Hs. cbn.
  rewrite sentence_mark_safe_eq. cbn. set_solver.
Qed.

Lemma settled_mark_mine c ai : settled ai → settled (mark_mine c ai).
Proof.
  unfold settled, clear_of. cbn. intros Hai. apply Forall_fmap.
  eapply Forall_impl; [done |]. intros s Hs. cbn.
  rewrite sentence_mark_mine_eq. cbn. set_solver.
Qed.

Lemma settled_move c ai : settled ai → settled (mark_safe c (record_move c ai)).
Proof.
  unfold settled, clear_of. cbn. intros Hai. apply Forall_fmap.
  eapply Forall_impl; [done |]. intros s Hs. cbn.
  rewrite sentence_mark_safe_eq. cbn. set_solver.
Qed.

Lemma settled_observe cell count ai : settled ai → settled (observe cell count ai).
Proof.
  intros Hai%(settled_move cell). unfold observe. cbn zeta.
  case_decide; [| done]. unfold add_sentence. case_decide; [done |].
  unfold settled, clear_of in *. cbn [set_knowledge knowledge moves_made mines].
  apply Forall_app. split; [done |]. constructor; [| constructor].
  cbn [Sentence.cells]. intros n Hn%scan_cells. set_solver.
Qed.

Lemma settled_mark_safe_list l ai :
  settled ai → settled (foldl (λ a c, mark_safe c a) ai l).
Proof.
  revert ai. induction l as [| c l IH]; intros ai Hai; [done |].
  cbn. by apply IH, settled_mark_safe.
Qed.

Lemma settled_mark_mine_list l ai :
  settled ai → settled (foldl (λ a c, mark_mine c a) ai l).
Proof.
  revert ai. induction l as [| c l IH]; intros ai Hai; [done |].
  cbn. by apply IH, settled_mark_mine.
Qed.

Lemma settled_conclude_at i ai : settled ai → settled (conclude_at i ai).
Proof.
  intros Hai. unfold conclude_at.
  destruct (knowledge ai !! i) as [s |]; [| done]. cbn zeta.
  pose proof (settled_mark_safe_list (elements (Sentence.known_safes s)) ai Hai)
    as Hai1.
  fold (mark_safe_all (Sentence.known_safes s) ai) in Hai1.
  destruct (knowledge (mark_safe_all _ ai) !! i) as [s' |]; [| done].
  by apply settled_mark_mine_list.
Qed.

Lemma settled_conclude ai : settled ai → settled (conclude ai).
Proof.
  unfold conclude. generalize (seq 0 (length (knowledge ai))). intros l.
  revert ai. induction l as [| i l IH]; intros ai Hai; [done |].
  cbn. by apply IH, settled_conclude_at.
Qed.

Lemma settled_purge ai : settled ai → settled (purge ai).
Proof.
  unfold settled, clear_of. cbn. rewrite !Forall_forall.
  intros Hai s [_ Hs]%list_elem_of_filter. by apply Hai.
Qed.

Lemma clear_infer_step K p1 acc p2 :
  Sentence.cells p2.2 ## K →
  Forall (λ s, Sentence.cells s ## K) acc.1 →
  Forall (λ s, Sentence.cells s ## K) (infer_step p1 acc p2).1.
Proof.
  intros H2 Hacc. unfold infer_step.
  case_decide; [done |]. case_decide; [| done]. cbn.
  apply Forall_app. split; [done |]. constructor; [| constructor].
  cbn. set_solver.
Qed.

Lemma clear_infer_from K (l1 l2 : list (nat * Sentence.t)) acc :
  Forall (λ p, Sentence.cells p.2 ## K) l2 →
  Forall (λ s, Sentence.cells s ## K) acc.1 →
  Forall (λ s, Sentence.cells s ## K)
    (foldl (λ acc p1, foldl (infer_step p1) acc l2) acc l1).1.
Proof.
  intros Hl2. revert acc.
  induction l1 as [| p1 l1 IH]; intros acc Hacc; [done |].
  cbn. apply IH. clear IH. revert acc Hacc.
  induction Hl2 as [| p2 l2 Hp2 _ IH2]; intros acc Hacc; [done |].
  cbn. by apply IH2, clear_infer_step.
Qed.

Lemma settled_infer new ai : settled ai → settled (infer new ai).1.
Proof.
  unfold settled, clear_of, infer, infer_from. cbn. intros Hai.
  apply clear_infer_from; [| done].
  apply Forall_forall. intros p (i & s & -> & Hi)%elem_of_lookup_imap.
  cbn. by eapply (Forall_lookup_1 _ _ _ _ Hai).
Qed.

Lemma settled_step c ai : settled ai → settled (step c ai).
Proof.
  intros Hai. destruct c as [cell count | cell | cell]; cbn [step].
  - unfold add_knowledge, closure_pass.
    by apply settled_infer, settled_purge, settled_conclude, settled_observe.
  - by apply settled_mark_safe.
  - by apply settled_mark_mine.
Qed.

Lemma settled_run cs h w : settled (run cs (init h w)).
Proof.
  unfold run. generalize (settled_init h w). generalize (init h w).
  induction cs as [| c cs IH]; intros ai Hai; [done |].
  cbn. by apply IH, settled_step.
Qed.

(** ** The subset step appends whatever is already known *)

Lemma infer_step_appends p1 acc p2 :
  p1.1 ≠ p2.1 → Sentence.cells p1.2 ⊆ Sentence.cells p2.2 →
  infer_step p1 acc p2
  = (acc.1 ++ [Sentence.mk (Sentence.cells p2.2 ∖ Sentence.cells p1.2)
                           (Sentence.count p2.2 - Sentence.count p1.2)],
     true).
Proof. intros Hne Hsub. unfold infer_step. by rewrite !decide_False, decide_True by done. Qed.

(** ** Sessions on which the engine falls short *)

(** C1.  [add_knowledge] leaves after one pass, stable or not: on the 2 x 3
    board with mines at (0,0) and (0,2), after the truthful observations at
    (1,2) and (1,0), the truthful observation at (1,1) returns [True] with
    no mine declared, although one more pass over the returned state
    declares both mines. *)
Theorem add_knowledge_returns_unstable :
  Forall (truthful board23) (session23 ++ [RecordObservation (1,1) 2])
  ∧ (add_knowledge (1,1) 2 (run session23 (init 2 3))).2 = true
  ∧ ¬ stable (add_knowledge (1,1) 2 (run session23 (init 2 3))).1
  ∧ mines (add_knowledge (1,1) 2 (run session23 (init 2 3))).1 = ∅
  ∧ mines (closure_pass
             (add_knowledge (1,1) 2 (run session23 (init 2 3))).1).1
    = {[ (0,0); (0,2) ]}.
Proof. by_evaluation. Qed.

(** C2.  With the knowledge base holding exactly
    [{(0,0),(0,1)} = 1], the observation at (1,1) adds
    [{(0,0),(0,1),(0,2)} = 2]; when the call returns the constraint
    [{(0,2)} = 1] has been derived, but (0,2) is not in [mines]. *)
Theorem subset_inference_stops_short :
  Forall (truthful board23m) (session23m ++ [RecordObservation (1,1) 3])
  ∧ knowledge (run session23m (init 2 3))
    = [Sentence.mk {[ (0,0); (0,1) ]} 1]
  ∧ knowledge (observe (1,1) 3 (run session23m (init 2 3)))
    = [Sentence.mk {[ (0,0); (0,1) ]} 1;
       Sentence.mk {[ (0,0); (0,1); (0,2) ]} 2]
  ∧ Sentence.mk {[ (0,2) ]} 1
    ∈ knowledge (add_knowledge (1,1) 3 (run session23m (init 2 3))).1
  ∧ (0,2) ∉ mines (add_knowledge (1,1) 3 (run session23m (init 2 3))).1.
Proof. by_evaluation. Qed.

(** C3.  A neighbour that is known safe but was never chosen as a move
    enters the new constraint: on the 3 x 3 board with a mine at (0,2),
    after the observation of 0 at (0,0), the cells (1,0) and (1,1) are in
    [safes] and not in [moves_made], and the observation of 1 at (0,1)
    builds the constraint [{(0,2),(1,0),(1,1),(1,2)} = 1]. *)
Theorem known_safe_neighbour_kept :
  Forall (truthful board33) (session33 ++ [RecordObservation (0,1) 1])
  ∧ {[ (1,0); (1,1) ]} ⊆ safes (run session33 (init 3 3))
  ∧ {[ (1,0); (1,1) ]} ## moves_made (run session33 (init 3 3))
  ∧ knowledge (observe (0,1) 1 (run session33 (init 3 3)))
    = [Sentence.mk {[ (0,2); (1,0); (1,1); (1,2) ]} 1].
Proof. by_evaluation. Qed.

(** C4.  On the same session the call returns with a live constraint that
    contains cells of [safes]. *)
Theorem constraint_meets_known_safe :
  ¬ clear_of
      (safes (run (session33 ++ [RecordObservation (0,1) 1]) (init 3 3))
       ∪ mines (run (session33 ++ [RecordObservation (0,1) 1]) (init 3 3)))
      (run (session33 ++ [RecordObservation (0,1) 1]) (init 3 3)).
Proof. by_evaluation. Qed.

(** C5.  A derived constraint is appended although an equal one is present:
    on the 2 x 6 board with mines at (0,0), (0,2) and (0,5), the constraint
    [{(0,2),(1,2)} = 1] is in the knowledge base after the observations at
    (1,0) and (1,1), and occurs twice after the observation at (1,5). *)
Theorem derived_constraint_duplicated :
  Forall (truthful board26) (session26 ++ [RecordObservation (1,5) 1])
  ∧ occurrences (Sentence.mk {[ (0,2); (1,2) ]} 1)
      (knowledge (run session26 (init 2 6))) = 1%nat
  ∧ occurrences (Sentence.mk {[ (0,2); (1,2) ]} 1)
      (knowledge (add_knowledge (1,5) 1 (run session26 (init 2 6))).1)
    = 2%nat.
Proof. by_evaluation. Qed.

(** C6.  A call returns with empty constraints in the knowledge base: on
    the 2 x 3 board with a mine at (1,1), after the observations at (0,0),
    (0,2) and (1,0), the observation at (1,2) leaves two live constraints
    with the same cells [{(0,1),(1,1)}], and the subset step appends the
    empty constraint [{} = 0] for each of the two ordered pairs. *)
Theorem empty_constraint_left :
  Forall (truthful board23c) (session23c ++ [RecordObservation (1,2) 1])
  ∧ occurrences (Sentence.mk ∅ 0)
      (knowledge (add_knowledge (1,2) 1 (run session23c (init 2 3))).1)
    = 2%nat.
Proof. by_evaluation. Qed.

(** * Further properties of the engine *)

(** ** Sentences and the mine layout *)

(** X1.  What a true sentence lets one conclude is true: the cells
    [known_safes] returns hold no mine and the cells [known_mines] returns
    are all mines. *)
Theorem sentence_conclusions_sound (M : gset Cell) (s : Sentence.t) :
  holds M s → Sentence.known_safes s ## M ∧ Sentence.known_mines s ⊆ M.
Proof.
  intros Hs. split; [by apply known_safes_disjoint |].
  by apply known_mines_subseteq.
Qed.

Lemma sentence_conclusions_sound_witness :
  holds {[ (0,0); (0,1); (5,5) ]} (Sentence.mk {[ (0,0); (0,1) ]} 2)
  ∧ Sentence.known_safes (Sentence.mk {[ (0,0); (0,1) ]} 2)
    ## ({[ (0,0); (0,1); (5,5) ]} : gset Cell)
  ∧ Sentence.known_mines (Sentence.mk {[ (0,0); (0,1) ]} 2)
    ⊆ ({[ (0,0); (0,1); (5,5) ]} : gset Cell).
Proof.
  split; [by vm_compute |].
  apply sentence_conclusions_sound. by vm_compute.
Defined.

(** X2.  Reducing a true sentence by a cell according to what the cell is
    keeps it true: [mark_mine] for a mine, [mark_safe] for a cell without
    one. *)
Theorem sentence_reduction_sound (M : gset Cell) (c : Cell) (s : Sentence.t) :
  holds M s →
  holds M (if bool_decide (c ∈ M) then Sentence.mark_mine c s
           else Sentence.mark_safe c s).
Proof.
  intros Hs. case_bool_decide.
  - by apply holds_mark_mine.
  - by apply holds_mark_safe.
Qed.

Lemma sentence_reduction_sound_witness :
  holds {[ (0,0) ]} (Sentence.mk {[ (0,0); (0,1) ]} 1)
  ∧ holds {[ (0,0) ]}
      (if bool_decide ((0,0) ∈ ({[ (0,0) ]} : gset Cell))
       then Sentence.mark_mine (0,0) (Sentence.mk {[ (0,0); (0,1) ]} 1)
       else Sentence.mark_safe (0,0) (Sentence.mk {[ (0,0); (0,1) ]} 1)).
Proof.
  split; [by vm_compute |].
  apply (sentence_reduction_sound {[ (0,0) ]} (0,0)). by vm_compute.
Defined.

(** X3.  The subset rule is sound: when the cells of one true sentence are
    among the cells of another, the sentence built from the difference of
    the cells and the difference of the counts is true. *)
Theorem subset_rule_sound (M : gset Cell) (s1 s2 : Sentence.t) :
  Sentence.cells s1 ⊆ Sentence.cells s2 → holds M s1 → holds M s2 →
  holds M (Sentence.mk (Sentence.cells s2 ∖ Sentence.cells s1)
                       (Sentence.count s2 - Sentence.count s1)).
Proof. apply holds_difference. Qed.

Lemma subset_rule_sound_witness :
  (Sentence.cells (Sentence.mk {[ (0,0); (0,1) ]} 1)
   ⊆ Sentence.cells (Sentence.mk {[ (0,0); (0,1); (0,2) ]} 2)
   ∧ holds {[ (0,0); (0,2) ]} (Sentence.mk {[ (0,0); (0,1) ]} 1)
   ∧ holds {[ (0,0); (0,2) ]} (Sentence.mk {[ (0,0); (0,1); (0,2) ]} 2))
  ∧ holds {[ (0,0); (0,2) ]}
      (Sentence.mk
         (Sentence.cells (Sentence.mk {[ (0,0); (0,1); (0,2) ]} 2)
          ∖ Sentence.cells (Sentence.mk {[ (0,0); (0,1) ]} 1))
         (Sentence.count (Sentence.mk {[ (0,0); (0,1); (0,2) ]} 2)
          - Sentence.count (Sentence.mk {[ (0,0); (0,1) ]} 1))).
Proof.
  assert (Sentence.cells (Sentence.mk {[ (0,0); (0,1) ]} 1)
          ⊆ Sentence.cells (Sentence.mk {[ (0,0); (0,1); (0,2) ]} 2)) as Hsub
    by by_evaluation.
  split; [split; [done | split; by vm_compute] |].
  apply subset_rule_sound; [done | by vm_compute ..].
Defined.

(** ** Declarations *)

Lemma marking_depends_on_set (l1 l2 : list Cell) ai :
  (list_to_set l1 : gset Cell) = list_to_set l2 →
  foldl (λ a c, mark_safe c a) ai l1 = foldl (λ a c, mark_safe c a) ai l2
  ∧ foldl (λ a c, mark_mine c a) ai l1 = foldl (λ a c, mark_mine c a) ai l2.
Proof.
  intros Heq. by rewrite !mark_safe_list_eq, !mark_mine_list_eq, Heq.
Qed.

(** X4.  Marking the cells of a list one after the other, as safe or as
    mines, gives a state that depends only on the set of the cells: neither
    their order nor repetitions matter. *)
Theorem marking_order_irrelevant (l1 l2 : list Cell) (ai : MinesweeperAI.t) :
  (list_to_set l1 : gset Cell) = list_to_set l2 →
  foldl (λ a c, mark_safe c a) ai l1 = foldl (λ a c, mark_safe c a) ai l2
  ∧ foldl (λ a c, mark_mine c a) ai l1 = foldl (λ a c, mark_mine c a) ai l2.
Proof. apply marking_depends_on_set. Qed.

Lemma marking_order_irrelevant_witness :
  (list_to_set [(0,0); (0,1)] : gset Cell)
  = list_to_set [(0,1); (0,0); (0,1)]
  ∧ foldl (λ a c, mark_safe c a) (run session23 (init 2 3)) [(0,0); (0,1)]
    = foldl (λ a c, mark_safe c a) (run session23 (init 2 3))
        [(0,1); (0,0); (0,1)]
  ∧ foldl (λ a c, mark_mine c a) (run session23 (init 2 3)) [(0,0); (0,1)]
    = foldl (λ a c, mark_mine c a) (run session23 (init 2 3))
        [(0,1); (0,0); (0,1)].
Proof.
  assert ((list_to_set [(0,0); (0,1)] : gset Cell)
          = list_to_set [(0,1); (0,0); (0,1)]) as Heq by by_evaluation.
  split; [done |]. by apply marking_order_irrelevant.
Defined.

(** X5.  Declaring a cell twice is declaring it once, and two declarations
    of the same kind may be swapped. *)
Theorem declare_idempotent_commutative (a b : Cell) (ai : MinesweeperAI.t) :
  mark_safe a (mark_safe a ai) = mark_safe a ai
  ∧ mark_mine a (mark_mine a ai) = mark_mine a ai
  ∧ mark_safe a (mark_safe b ai) = mark_safe b (mark_safe a ai)
  ∧ mark_mine a (mark_mine b ai) = mark_mine b (mark_mine a ai).
Proof.
  assert ((list_to_set [a; a] : gset Cell) = list_to_set [a]) as Haa
    by set_solver.
  assert ((list_to_set [b; a] : gset Cell) = list_to_set [a; b]) as Hab
    by set_solver.
  destruct (marking_depends_on_set _ _ ai Haa) as [Hs1 Hm1].
  destruct (marking_depends_on_set _ _ ai Hab) as [Hs2 Hm2].
  done.
Qed.

(** ** The sets of the knowledge base only grow *)

Lemma extends_refl ai : extends ai ai.
Proof. by repeat split. Qed.

Lemma extends_trans ai1 ai2 ai3 :
  extends ai1 ai2 → extends ai2 ai3 → extends ai1 ai3.
Proof.
  intros (? & ? & ? & ? & ?) (? & ? & ? & ? & ?).
  repeat split; try congruence; set_solver.
Qed.

Lemma extends_mark_safe c ai : extends ai (mark_safe c ai).
Proof. repeat split; cbn; set_solver. Qed.

Lemma extends_mark_mine c ai : extends ai (mark_mine c ai).
Proof. repeat split; cbn; set_solver. Qed.

Lemma extends_mark_safe_all cs ai : extends ai (mark_safe_all cs ai).
Proof. rewrite mark_safe_all_eq. repeat split; cbn; set_solver. Qed.

Lemma extends_mark_mine_all cs ai : extends ai (mark_mine_all cs ai).
Proof. rewrite mark_mine_all_eq. repeat split; cbn; set_solver. Qed.

Lemma extends_conclude_at i ai : extends ai (conclude_at i ai).
Proof.
  unfold conclude_at.
  destruct (knowledge ai !! i) as [s |]; [| apply extends_refl]. cbn zeta.
  destruct (knowledge (mark_safe_all _ ai) !! i) as [s' |].
  - eapply extends_trans; [apply extends_mark_safe_all |].
    apply extends_mark_mine_all.
  - apply extends_mark_safe_all.
Qed.

Lemma extends_conclude_list (l : list nat) ai :
  extends ai (foldl (λ a i, conclude_at i a) ai l).
Proof.
  revert ai. induction l as [| i l IH]; intros ai; [apply extends_refl |].
  cbn. eapply extends_trans; [apply extends_conclude_at | apply IH].
Qed.

Lemma extends_conclude ai : extends ai (conclude ai).
Proof. apply extends_conclude_list. Qed.

Lemma extends_closure_pass ai : extends ai (closure_pass ai).1.
Proof.
  unfold closure_pass, infer, purge. cbn.
  destruct (extends_conclude ai) as (? & ? & ? & ? & ?). by repeat split.
Qed.

Lemma observe_sets cell count ai :
  height (observe cell count ai) = height ai
  ∧ width (observe cell count ai) = width ai
  ∧ moves_made (observe cell count ai) = {[cell]} ∪ moves_made ai
  ∧ safes (observe cell count ai) = {[cell]} ∪ safes ai
  ∧ mines (observe cell count ai) = mines ai.
Proof.
  unfold observe, add_sentence. cbn zeta.
  repeat case_decide; by repeat split.
Qed.

Lemma add_knowledge_sets cell count ai :
  height (add_knowledge cell count ai).1 = height ai
  ∧ width (add_knowledge cell count ai).1 = width ai
  ∧ moves_made (add_knowledge cell count ai).1 = {[cell]} ∪ moves_made ai
  ∧ {[cell]} ∪ safes ai ⊆ safes (add_knowledge cell count ai).1
  ∧ mines ai ⊆ mines (add_knowledge cell count ai).1.
Proof.
  unfold add_knowledge.
  destruct (extends_closure_pass (observe cell count ai))
    as (Hh & Hw & Hmv & Hsf & Hmn).
  destruct (observe_sets cell count ai) as (Hh' & Hw' & Hmv' & Hsf' & Hmn').
  rewrite Hh, Hw, Hmv, Hh', Hw', Hmv'. rewrite Hsf', Hmn' in *. done.
Qed.

Lemma step_sets c ai :
  height (step c ai) = height ai ∧ width (step c ai) = width ai
  ∧ moves_made ai ⊆ moves_made (step c ai)
  ∧ safes ai ⊆ safes (step c ai)
  ∧ mines ai ⊆ mines (step c ai).
Proof.
  destruct c as [cell count | cell | cell]; cbn [step].
  - destruct (add_knowledge_sets cell count ai) as (Hh & Hw & Hmv & Hsf & Hmn).
    repeat split; [done | done | | | done].
    + rewrite Hmv. apply union_subseteq_r.
    + etrans; [apply union_subseteq_r | exact Hsf].
  - repeat split; cbn; set_solver.
  - repeat split; cbn; set_solver.
Qed.

Lemma run_cons c cs ai : run (c :: cs) ai = run cs (step c ai).
Proof. reflexivity. Qed.

(** X6.  Whatever the calls, the grid size stays as it is and [moves_made],
    [safes] and [mines] only grow: no call forgets a move, a safe cell or a
    mine. *)
Theorem knowledge_sets_grow (cs : list call) (ai : MinesweeperAI.t) :
  height (run cs ai) = height ai ∧ width (run cs ai) = width ai
  ∧ moves_made ai ⊆ moves_made (run cs ai)
  ∧ safes ai ⊆ safes (run cs ai)
  ∧ mines ai ⊆ mines (run cs ai).
Proof.
  revert ai. induction cs as [| c cs IH]; intros ai; [by repeat split |].
  rewrite run_cons. destruct (IH (step c ai)) as (Hh & Hw & Hmv & Hsf & Hmn).
  destruct (step_sets c ai) as (Hh' & Hw' & Hmv' & Hsf' & Hmn').
  repeat split; [congruence | congruence | set_solver ..].
Qed.

Lemma run_moves_made cs ai :
  moves_made (run cs ai) = list_to_set (observed_cells cs) ∪ moves_made ai.
Proof.
  revert ai. induction cs as [| c cs IH]; intros ai; [cbn; set_solver |].
  rewrite run_cons, IH.
  destruct c as [cell count | cell | cell]; cbn [step observed_cells omap].
  - destruct (add_knowledge_sets cell count ai) as (_ & _ & -> & _).
    fold (observed_cells cs). generalize (moves_made ai). set_solver.
  - fold (observed_cells cs). done.
  - fold (observed_cells cs). done.
Qed.

Lemma run_moves_safe cs ai :
  moves_made ai ⊆ safes ai → moves_made (run cs ai) ⊆ safes (run cs ai).
Proof.
  revert ai. induction cs as [| c cs IH]; intros ai Hai; [done |].
  rewrite run_cons. apply IH.
  destruct c as [cell count | cell | cell]; cbn [step].
  - destruct (add_knowledge_sets cell count ai) as (_ & _ & -> & Hsf & _).
    etrans; [| exact Hsf]. by apply union_mono_l.
  - cbn. set_solver.
  - cbn. set_solver.
Qed.

Lemma moves_are_observed_cells_aux (cs : list call) (h w : Z) :
  moves_made (run cs (init h w)) = list_to_set (observed_cells cs)
  ∧ moves_made (run cs (init h w)) ⊆ safes (run cs (init h w)).
Proof.
  split; [rewrite run_moves_made; cbn; set_solver |].
  by apply run_moves_safe.
Qed.

(** X7.  After any session on a fresh knowledge base, [moves_made] is
    exactly the set of cells on which [add_knowledge] was called, and every
    one of them is in [safes]. *)
Theorem moves_are_observed_cells (cs : list call) (h w : Z) :
  moves_made (run cs (init h w)) = list_to_set (observed_cells cs)
  ∧ moves_made (run cs (init h w)) ⊆ safes (run cs (init h w)).
Proof. apply moves_are_observed_cells_aux. Qed.

(** ** Truthful sessions *)

(** X8.  The engine is sound: after a session that is truthful about a
    board, on a fresh knowledge base of its size, every cell of [mines] is a
    mine of the board, no cell of [safes] or [moves_made] is one, and every
    live sentence counts the mines among its cells exactly. *)
Theorem truthful_session_sound (g : Minesweeper.t) (cs : list call) :
  Forall (truthful g) cs →
  mines (run cs (init (Minesweeper.height g) (Minesweeper.width g)))
    ⊆ Minesweeper.mines g
  ∧ safes (run cs (init (Minesweeper.height g) (Minesweeper.width g)))
    ## Minesweeper.mines g
  ∧ moves_made (run cs (init (Minesweeper.height g) (Minesweeper.width g)))
    ## Minesweeper.mines g
  ∧ Forall (holds (Minesweeper.mines g))
      (knowledge (run cs (init (Minesweeper.height g) (Minesweeper.width g)))).
Proof.
  intros Hcs.
  by destruct (consistent_run g cs _ Hcs (consistent_init g)).
Qed.

Lemma truthful_session_sound_witness :
  Forall (truthful board23c) (session23c ++ [RecordObservation (1,2) 1])
  ∧ mines (run (session23c ++ [RecordObservation (1,2) 1]) (init 2 3))
    ⊆ Minesweeper.mines board23c
  ∧ safes (run (session23c ++ [RecordObservation (1,2) 1]) (init 2 3))
    ## Minesweeper.mines board23c
  ∧ moves_made (run (session23c ++ [RecordObservation (1,2) 1]) (init 2 3))
    ## Minesweeper.mines board23c
  ∧ Forall (holds (Minesweeper.mines board23c))
      (knowledge (run (session23c ++ [RecordObservation (1,2) 1]) (init 2 3))).
Proof.
  split; [by_evaluation |].
  apply (truthful_session_sound board23c). by_evaluation.
Defined.

(** ** Safe moves *)

Lemma first_unmoved_Some ai order c :
  first_unmoved ai order = Some c → c ∈ order ∧ c ∉ moves_made ai.
Proof.
  induction order as [| x order IH]; [done |]. cbn.
  case_decide.
  - intros [= ->]. split; [by left | done].
  - intros [Hin Hc]%IH. split; [by right | done].
Qed.

Lemma first_unmoved_None ai order :
  first_unmoved ai order = None ↔ ∀ c, c ∈ order → c ∈ moves_made ai.
Proof.
  induction order as [| x order IH]; cbn.
  - split; [| done]. intros _ c Hc. by apply elem_of_nil in Hc.
  - case_decide as Hx.
    + split; [done |]. intros Hall. exfalso. apply Hx, Hall. by left.
    + rewrite IH. split.
      * intros Hall c [Heq | Hc]%elem_of_cons; [subst c | by apply Hall].
        by destruct (decide (x ∈ moves_made ai)).
      * intros Hall c Hc. apply Hall. by right.
Qed.

(** X9.  [make_safe_move], whatever the order in which the set [safes] is
    iterated: a cell it returns is in [safes] and not in [moves_made], and
    it returns [None] exactly when every known safe cell has been played. *)
Theorem make_safe_move_spec (ai : MinesweeperAI.t) (order : list Cell) :
  list_to_set order = safes ai →
  match first_unmoved ai order with
  | Some c => c ∈ safes ai ∧ c ∉ moves_made ai
  | None => safes ai ⊆ moves_made ai
  end.
Proof.
  intros Horder. destruct (first_unmoved ai order) as [c |] eqn:Hmove.
  - apply first_unmoved_Some in Hmove as [Hin Hc]. split; [| done].
    rewrite <- Horder. by apply elem_of_list_to_set.
  - intros c Hc. eapply first_unmoved_None; [done |].
    rewrite <- Horder in Hc. by apply elem_of_list_to_set in Hc.
Qed.

Lemma make_safe_move_spec_witness :
  list_to_set (elements (safes (run session33 (init 3 3))))
  = safes (run session33 (init 3 3))
  ∧ match first_unmoved (run session33 (init 3 3))
            (elements (safes (run session33 (init 3 3)))) with
    | Some c => c ∈ safes (run session33 (init 3 3))
                ∧ c ∉ moves_made (run session33 (init 3 3))
    | None => safes (run session33 (init 3 3))
              ⊆ moves_made (run session33 (init 3 3))
    end.
Proof.
  split; [by_evaluation |].
  apply make_safe_move_spec. by_evaluation.
Defined.



(** ** The sentence of an observation *)

Lemma elem_of_window (cell n : Cell) : n ∈ window cell ↔ near cell n.
Proof.
  rewrite window_eq. unfold near.
  destruct cell as [r c], n as [i j]. cbn [fst snd].
  rewrite !elem_of_cons, elem_of_nil. split.
  - intros Hin. decompose [or] Hin; simplify_eq; lia.
  - intros [Hi Hj].
    assert (i = r - 1 ∨ i = r ∨ i = r + 1) as Hi' by lia.
    assert (j = c - 1 ∨ j = c ∨ j = c + 1) as Hj' by lia.
    destruct Hi' as [-> | [-> | ->]], Hj' as [-> | [-> | ->]]; tauto.
Qed.

Lemma observation_sentence_facts (cell : Cell) (count : Z)
    (ai : MinesweeperAI.t) :
  (∀ n, n ∈ Sentence.cells (observation_sentence cell count ai)
        ↔ near cell n ∧ n ≠ cell ∧ in_bounds ai n
          ∧ (n ∉ moves_made ai) ∧ (n ∉ mines ai))
  ∧ Sentence.count (observation_sentence cell count ai)
    = count
      - Z.of_nat
          (size (filter (λ n, near cell n ∧ n ≠ cell ∧ in_bounds ai n)
                        (mines ai)))
  ∧ knowledge (observe cell count ai)
    = if decide (Sentence.cells (observation_sentence cell count ai) = ∅
                 ∨ observation_sentence cell count ai
                   ∈ Sentence.mark_safe cell <$> knowledge ai)
      then Sentence.mark_safe cell <$> knowledge ai
      else (Sentence.mark_safe cell <$> knowledge ai)
           ++ [observation_sentence cell count ai].
Proof.
  split; [| split].
  - intros n. unfold observation_sentence. cbn [Sentence.cells].
    rewrite scan_cells, elem_of_window. unfold in_bounds. cbn.
    rewrite elem_of_union, elem_of_singleton. tauto.
  - unfold observation_sentence. cbn [Sentence.count].
    rewrite scan_count. do 2 f_equal.
    rewrite <- (size_list_to_set (C:=gset Cell))
      by apply NoDup_filter, NoDup_window.
    f_equal. apply set_eq. intros n.
    rewrite elem_of_list_to_set, list_elem_of_filter, elem_of_filter,
      elem_of_window.
    unfold in_bounds. cbn. tauto.
  - unfold observe, add_sentence, observation_sentence. cbn zeta.
    cbn [knowledge mark_safe record_move set_knowledge Sentence.cells].
    repeat case_decide; try done; exfalso; tauto.
Qed.

(** X11.  The sentence [add_knowledge((r, c), count)] builds.  Its cells are
    the cells within one row and one column of the observed cell, other
    than that cell, that are on the grid and neither in [moves_made] nor in
    [mines]; its count is the reported one, less the number of such
    neighbours on the grid that are in [mines].  The sentence is appended to
    the reduced knowledge base unless it has no cell or an equal sentence is
    there. *)
Theorem observation_sentence_spec (cell : Cell) (count : Z)
    (ai : MinesweeperAI.t) :
  (∀ n, n ∈ Sentence.cells (observation_sentence cell count ai)
        ↔ near cell n ∧ n ≠ cell ∧ in_bounds ai n
          ∧ (n ∉ moves_made ai) ∧ (n ∉ mines ai))
  ∧ Sentence.count (observation_sentence cell count ai)
    = count
      - Z.of_nat
          (size (filter (λ n, near cell n ∧ n ≠ cell ∧ in_bounds ai n)
                        (mines ai)))
  ∧ knowledge (observe cell count ai)
    = if decide (Sentence.cells (observation_sentence cell count ai) = ∅
                 ∨ observation_sentence cell count ai
                   ∈ Sentence.mark_safe cell <$> knowledge ai)
      then Sentence.mark_safe cell <$> knowledge ai
      else (Sentence.mark_safe cell <$> knowledge ai)
           ++ [observation_sentence cell count ai].
Proof. apply observation_sentence_facts. Qed.

(** ** What the subset step appends and what [add_knowledge] returns *)

Lemma infer_inner_eq p1 (l : list (nat * Sentence.t)) acc :
  foldl (infer_step p1) acc l
  = (acc.1 ++ derived_with l p1,
     acc.2 || bool_decide (derived_with l p1 ≠ [])).
Proof.
  revert acc. induction l as [| p2 l IH]; intros [k new].
  - cbn. by rewrite app_nil_r, orb_false_r.
  - cbn [foldl]. rewrite IH. unfold infer_step, derived_with.
    cbn [fst snd]. case_decide as Hid.
    + rewrite filter_cons_False by tauto. done.
    + case_decide as Hsub.
      * rewrite filter_cons_True by done. rewrite fmap_cons.
        cbn [fst snd]. rewrite <- app_assoc. cbn [app orb].
        f_equal. rewrite (bool_decide_eq_true_2 (_ :: _ ≠ [])) by done.
        by rewrite orb_true_r.
      * rewrite filter_cons_False by tauto. done.
Qed.

Lemma infer_from_eq (l1 l2 : list (nat * Sentence.t)) acc :
  foldl (λ acc p1, foldl (infer_step p1) acc l2) acc l1
  = (acc.1 ++ (l1 ≫= derived_with l2),
     acc.2 || bool_decide (l1 ≫= derived_with l2 ≠ [])).
Proof.
  revert acc. induction l1 as [| p1 l1 IH]; intros [k new].
  - cbn. by rewrite app_nil_r, orb_false_r.
  - cbn [foldl]. rewrite IH, infer_inner_eq. cbn [fst snd mbind list_bind].
    rewrite <- app_assoc. f_equal.
    destruct (derived_with l2 p1) as [| d ds]; cbn [app].
    + by rewrite bool_decide_eq_false_2, orb_false_r by naive_solver.
    + rewrite !(bool_decide_eq_true_2 (_ :: _ ≠ [])) by done.
      by rewrite !orb_true_r.
Qed.

Lemma infer_eq ai :
  infer false ai
  = (set_knowledge (knowledge ai ++ derived (knowledge ai)) ai,
     bool_decide (derived (knowledge ai) ≠ [])).
Proof. unfold infer, infer_from. by rewrite infer_from_eq. Qed.

Lemma elem_of_derived k d :
  d ∈ derived k
  ↔ ∃ i j s1 s2, i ≠ j ∧ k !! i = Some s1 ∧ k !! j = Some s2
      ∧ Sentence.cells s1 ⊆ Sentence.cells s2 ∧ d = difference s2 s1.
Proof.
  unfold derived, derived_with. rewrite list_elem_of_bind. split.
  - intros ([i s1] & Hd & (? & ? & [= <- <-] & Hi)%elem_of_lookup_imap).
    apply list_elem_of_fmap in Hd as ([j s2] & -> & Hp2).
    apply list_elem_of_filter in Hp2
      as [[Hne Hsub] (? & ? & [= <- <-] & Hj)%elem_of_lookup_imap].
    by exists i, j, s1, s2.
  - intros (i & j & s1 & s2 & Hne & Hi & Hj & Hsub & ->).
    exists (i, s1). split; [| apply elem_of_lookup_imap; eauto].
    apply list_elem_of_fmap. exists (j, s2). split; [done |].
    apply list_elem_of_filter. split; [done |].
    apply elem_of_lookup_imap; eauto.
Qed.

Lemma add_knowledge_eq cell count ai :
  knowledge (add_knowledge cell count ai).1
  = kept cell count ai ++ derived (kept cell count ai)
  ∧ (add_knowledge cell count ai).2
    = bool_decide (derived (kept cell count ai) ≠ []).
Proof. unfold add_knowledge, closure_pass, kept. by rewrite infer_eq. Qed.

(** X12.  [add_knowledge] returns [True] exactly when, after the
    conclusions have been drawn and the empty sentences removed, two
    sentences at different places of the knowledge base have the cells of
    the one among the cells of the other. *)
Theorem add_knowledge_returns (cell : Cell) (count : Z)
    (ai : MinesweeperAI.t) :
  (add_knowledge cell count ai).2 = true
  ↔ ∃ i j s1 s2, i ≠ j
      ∧ kept cell count ai !! i = Some s1
      ∧ kept cell count ai !! j = Some s2
      ∧ Sentence.cells s1 ⊆ Sentence.cells s2.
Proof.
  destruct (add_knowledge_eq cell count ai) as [_ ->].
  rewrite bool_decide_eq_true. split.
  - intros Hne. destruct (derived (kept cell count ai)) as [| d ds] eqn:Hd;
      [done |].
    assert (d ∈ derived (kept cell count ai)) as Hin by (rewrite Hd; by left).
    apply elem_of_derived in Hin as (i & j & s1 & s2 & ? & ? & ? & ? & _).
    by exists i, j, s1, s2.
  - intros (i & j & s1 & s2 & ? & ? & ? & ?) Hnil.
    assert (difference s2 s1 ∈ derived (kept cell count ai)) as Hin
      by (apply elem_of_derived; by exists i, j, s1, s2).
    rewrite Hnil in Hin. by apply elem_of_nil in Hin.
Qed.

(** X13.  The sentences [add_knowledge] leaves: first the sentences kept
    after the conclusions and the removal of the empty ones, none of them
    empty, in their order; then the derived ones, each the difference of two
    kept sentences at different places, the cells of the first among the
    cells of the second, and one for every such pair. *)
Theorem add_knowledge_appends (cell : Cell) (count : Z)
    (ai : MinesweeperAI.t) :
  knowledge (add_knowledge cell count ai).1
  = kept cell count ai ++ derived (kept cell count ai)
  ∧ Forall (λ s, Sentence.cells s ≠ ∅) (kept cell count ai)
  ∧ ∀ d, d ∈ derived (kept cell count ai)
         ↔ ∃ i j s1 s2, i ≠ j
             ∧ kept cell count ai !! i = Some s1
             ∧ kept cell count ai !! j = Some s2
             ∧ Sentence.cells s1 ⊆ Sentence.cells s2
             ∧ d = difference s2 s1.
Proof.
  split; [apply add_knowledge_eq |]. split; [| apply elem_of_derived].
  unfold kept, purge. cbn. apply Forall_forall.
  intros s [Hs _]%list_elem_of_filter. intros Hempty. apply Hs.
  rewrite Hempty. apply size_empty.
Qed.

(** ** The board's neighbour count *)

Lemma nearby_fold_count g cell l k :
  foldl (Minesweeper.nearby_step g cell) k l
  = k + Z.of_nat
          (length (filter (λ n, n ≠ cell ∧ Minesweeper.on_board g n
                                ∧ n ∈ Minesweeper.mines g) l)).
Proof.
  revert k. induction l as [| n l IH]; intros k; cbn [foldl].
  - cbn. lia.
  - rewrite IH. unfold Minesweeper.nearby_step, Minesweeper.is_mine.
    case_decide as Hcell; [rewrite filter_cons_False by tauto; lia |].
    case_decide as Hb; [| rewrite filter_cons_False by tauto; lia].
    case_bool_decide as Hm.
    + rewrite filter_cons_True by done. cbn [length]. lia.
    + rewrite filter_cons_False by tauto. lia.
Qed.

Lemma length_window cell : length (window cell) = 9%nat.
Proof. by rewrite window_eq. Qed.

Lemma self_in_window cell : cell ∈ window cell.
Proof. apply elem_of_window. unfold near. lia. Qed.

(** X14.  [nearby_mines] is the number of mines of the board among the
    cells within one row and one column of the given cell that are on the
    board, the cell itself left out whether it is a mine or not; it lies
    between 0 and 8. *)
Theorem nearby_mines_counts (g : Minesweeper.t) (cell : Cell) :
  Minesweeper.nearby_mines g cell
  = Z.of_nat
      (size (filter (λ n, near cell n ∧ n ≠ cell ∧ Minesweeper.on_board g n)
                    (Minesweeper.mines g)))
  ∧ 0 ≤ Minesweeper.nearby_mines g cell ≤ 8.
Proof.
  assert (Minesweeper.nearby_mines g cell
          = Z.of_nat
              (size (filter (λ n, near cell n ∧ n ≠ cell
                                  ∧ Minesweeper.on_board g n)
                            (Minesweeper.mines g)))) as Heq.
  { unfold Minesweeper.nearby_mines. rewrite nearby_fold_count.
    rewrite <- (size_list_to_set (C:=gset Cell))
      by apply NoDup_filter, NoDup_window.
    rewrite Z.add_0_l. do 2 f_equal. apply set_eq. intros n.
    rewrite elem_of_list_to_set, list_elem_of_filter, elem_of_filter,
      elem_of_window. tauto. }
  split; [done |]. rewrite Heq. split; [lia |].
  assert (filter (λ n, near cell n ∧ n ≠ cell ∧ Minesweeper.on_board g n)
                 (Minesweeper.mines g)
          ⊆ list_to_set (window cell) ∖ {[cell]}) as Hsub.
  { intros n. rewrite elem_of_filter, elem_of_difference,
      elem_of_list_to_set, elem_of_window, elem_of_singleton. tauto. }
  apply subseteq_size in Hsub.
  rewrite size_difference in Hsub.
  - rewrite size_list_to_set, length_window, size_singleton in Hsub
      by apply NoDup_window. lia.
  - intros n ->%elem_of_singleton.
    apply elem_of_list_to_set, self_in_window.
Qed.

(** ** Properties of sentences that no call destroys *)

Section Hereditary.
Context (Q : Sentence.t → Prop) (HQ : hereditary Q).

Lemma hereditary_mark_safe_all cs ai :
  Forall Q (knowledge ai) → Forall Q (knowledge (mark_safe_all cs ai)).
Proof.
  intros Hk. rewrite mark_safe_all_eq. cbn. apply Forall_fmap.
  eapply Forall_impl; [done |]. intros s Hs. cbn.
  eapply HQ; [| done]. cbn. set_solver.
Qed.

Lemma hereditary_mark_mine_all cs ai :
  Forall Q (knowledge ai) → Forall Q (knowledge (mark_mine_all cs ai)).
Proof.
  intros Hk. rewrite mark_mine_all_eq. cbn. apply Forall_fmap.
  eapply Forall_impl; [done |]. intros s Hs. cbn.
  eapply HQ; [| done]. cbn. set_solver.
Qed.

Lemma hereditary_mark_safe c ai :
  Forall Q (knowledge ai) → Forall Q (knowledge (mark_safe c ai)).
Proof.
  intros Hk. cbn. apply Forall_fmap.
  eapply Forall_impl; [done |]. intros s Hs. cbn.
  eapply HQ; [| done]. rewrite sentence_mark_safe_eq. cbn. set_solver.
Qed.

Lemma hereditary_mark_mine c ai :
  Forall Q (knowledge ai) → Forall Q (knowledge (mark_mine c ai)).
Proof.
  intros Hk. cbn. apply Forall_fmap.
  eapply Forall_impl; [done |]. intros s Hs. cbn.
  eapply HQ; [| done]. rewrite sentence_mark_mine_eq. cbn. set_solver.
Qed.

Lemma hereditary_conclude_at i ai :
  Forall Q (knowledge ai) → Forall Q (knowledge (conclude_at i ai)).
Proof.
  intros Hk. unfold conclude_at.
  destruct (knowledge ai !! i) as [s |]; [| done]. cbn zeta.
  pose proof (hereditary_mark_safe_all (Sentence.known_safes s) ai Hk) as Hk1.
  destruct (knowledge (mark_safe_all _ ai) !! i) as [s' |]; [| done].
  by apply hereditary_mark_mine_all.
Qed.

Lemma hereditary_conclude ai :
  Forall Q (knowledge ai) → Forall Q (knowledge (conclude ai)).
Proof.
  unfold conclude. generalize (seq 0 (length (knowledge ai))). intros l.
  revert ai. induction l as [| i l IH]; intros ai Hk; [done |].
  cbn [foldl]. by apply IH, hereditary_conclude_at.
Qed.

Lemma hereditary_closure_pass ai :
  Forall Q (knowledge ai) → Forall Q (knowledge (closure_pass ai).1).
Proof.
  intros Hk%hereditary_conclude. unfold closure_pass. rewrite infer_eq.
  cbn [fst knowledge set_knowledge].
  assert (Forall Q (knowledge (purge (conclude ai)))) as Hkept.
  { unfold purge. cbn. rewrite Forall_forall in Hk |- *.
    intros s [_ Hs]%list_elem_of_filter. by apply Hk. }
  apply Forall_app. split; [done |]. apply Forall_forall.
  intros d (i & j & s1 & s2 & _ & _ & Hj & _ & ->)%elem_of_derived.
  eapply HQ; [| by eapply (Forall_lookup_1 _ _ _ _ Hkept)].
  cbn. set_solver.
Qed.

End Hereditary.

Lemma compact_hereditary h w : hereditary (compact h w).
Proof.
  intros s s' Hsub [Hsize Hgrid]. split.
  - etrans; [by apply subseteq_size | done].
  - intros n Hn. apply Hgrid. set_solver.
Qed.

Lemma compact_observation cell count ai :
  compact (height ai) (width ai) (observation_sentence cell count ai).
Proof.
  destruct (observation_sentence_facts cell count ai) as (Hcells & _ & _).
  split.
  - assert (Sentence.cells (observation_sentence cell count ai)
            ⊆ list_to_set (window cell) ∖ {[cell]}) as Hsub.
    { intros n Hn%Hcells. rewrite elem_of_difference, elem_of_list_to_set,
        elem_of_window, elem_of_singleton. tauto. }
    apply subseteq_size in Hsub. rewrite size_difference in Hsub.
    + rewrite size_list_to_set, length_window, size_singleton in Hsub
        by apply NoDup_window. lia.
    + intros n ->%elem_of_singleton.
      apply elem_of_list_to_set, self_in_window.
  - intros n Hn%Hcells. unfold in_bounds in Hn. tauto.
Qed.

Lemma compact_step c ai :
  Forall (compact (height ai) (width ai)) (knowledge ai) →
  Forall (compact (height ai) (width ai)) (knowledge (step c ai)).
Proof.
  intros Hk.
  pose proof (compact_hereditary (height ai) (width ai)) as HQ.
  destruct c as [cell count | cell | cell]; cbn [step].
  - unfold add_knowledge. apply hereditary_closure_pass; [done |].
    destruct (observation_sentence_facts cell count ai) as (_ & _ & ->).
    assert (Forall (compact (height ai) (width ai))
              (Sentence.mark_safe cell <$> knowledge ai)) as Hk'
      by by apply (hereditary_mark_safe _ HQ cell ai).
    case_decide; [done |]. apply Forall_app. split; [done |].
    constructor; [apply compact_observation | constructor].
  - by apply hereditary_mark_safe.
  - by apply hereditary_mark_mine.
Qed.

(** X15.  Whatever the calls on a fresh knowledge base, every live
    sentence has at most eight cells and all its cells are on the grid. *)
Theorem sentences_compact (cs : list call) (h w : Z) :
  Forall (compact h w) (knowledge (run cs (init h w))).
Proof.
  assert (∀ ai, height ai = h → width ai = w →
                Forall (compact h w) (knowledge ai) →
                Forall (compact h w) (knowledge (run cs ai))) as Hrun.
  { induction cs as [| c cs IH]; intros ai Hh Hw Hk; [done |].
    rewrite run_cons. destruct (step_sets c ai) as (Hh' & Hw' & _).
    apply IH; [congruence | congruence |].
    pose proof (compact_step c ai) as Hstep. rewrite Hh, Hw in Hstep.
    by apply Hstep. }
  apply Hrun; [done | done | constructor].
Qed.

(** ** A pass over a single sentence *)

Lemma derived_single s : derived [s] = [].
Proof.
  unfold derived, derived_with. cbn. by rewrite decide_False by tauto.
Qed.

Lemma conclude_single ai s :
  knowledge ai = [s] → conclude ai = conclude_at 0 ai.
Proof. intros Hk. unfold conclude. by rewrite Hk. Qed.

Lemma known_safes_zero N : Sentence.known_safes (Sentence.mk N 0) = N.
Proof. unfold Sentence.known_safes. cbn. by rewrite decide_True. Qed.

Lemma known_safes_nonzero N c :
  c ≠ 0 → Sentence.known_safes (Sentence.mk N c) = ∅.
Proof. intros Hc. unfold Sentence.known_safes. cbn. by rewrite decide_False. Qed.

Lemma known_mines_full N :
  Sentence.known_mines (Sentence.mk N (Z.of_nat (size N))) = N.
Proof. unfold Sentence.known_mines. cbn. by rewrite decide_True. Qed.

Lemma known_mines_empty c : Sentence.known_mines (Sentence.mk ∅ c) = ∅.
Proof. unfold Sentence.known_mines. cbn. by case_decide. Qed.

Lemma purge_infer_empty h w mv mn sf c :
  infer false (purge (MinesweeperAI.mk h w mv mn sf [Sentence.mk ∅ c]))
  = (MinesweeperAI.mk h w mv mn sf [], false).
Proof.
  rewrite infer_eq. unfold purge. cbn [knowledge set_knowledge].
  rewrite filter_cons_False by (cbn; rewrite size_empty; tauto).
  by rewrite filter_nil.
Qed.

Lemma pass_single_zero ai N :
  knowledge ai = [Sentence.mk N 0] →
  closure_pass ai
  = (MinesweeperAI.mk (height ai) (width ai) (moves_made ai) (mines ai)
       (N ∪ safes ai) [], false).
Proof.
  destruct ai as [h w mv mn sf k]. cbn. intros ->.
  unfold closure_pass, conclude. cbn [knowledge length seq foldl].
  unfold conclude_at. cbn [knowledge]. cbn [lookup list_lookup].
  rewrite known_safes_zero, mark_safe_all_eq. cbn.
  rewrite difference_diag_L, known_mines_empty, mark_mine_all_eq. cbn.
  rewrite difference_diag_L, purge_infer_empty.
  do 2 f_equal. set_solver.
Qed.

Lemma pass_single_full ai N :
  N ≠ ∅ → knowledge ai = [Sentence.mk N (Z.of_nat (size N))] →
  closure_pass ai
  = (MinesweeperAI.mk (height ai) (width ai) (moves_made ai)
       (N ∪ mines ai) (safes ai) [], false).
Proof.
  destruct ai as [h w mv mn sf k]. cbn. intros HN ->.
  assert (Z.of_nat (size N) ≠ 0) as Hsize.
  { intros Hz. apply HN, leibniz_equiv, size_empty_inv. lia. }
  unfold closure_pass, conclude. cbn [knowledge length seq foldl].
  unfold conclude_at. cbn [knowledge]. cbn [lookup list_lookup].
  rewrite known_safes_nonzero, mark_safe_all_eq by done. cbn.
  rewrite difference_empty_L, known_mines_full, mark_mine_all_eq. cbn.
  rewrite difference_diag_L, purge_infer_empty.
  do 2 f_equal. set_solver.
Qed.

(** ** The first observation on a fresh knowledge base *)

Lemma elem_of_neighbours h w cell n :
  n ∈ neighbours h w cell
  ↔ near cell n ∧ n ≠ cell ∧ 0 ≤ n.1 < h ∧ 0 ≤ n.2 < w.
Proof.
  unfold neighbours.
  rewrite elem_of_list_to_set, list_elem_of_filter, elem_of_window. tauto.
Qed.

Lemma ai_ext (a b : MinesweeperAI.t) :
  height a = height b → width a = width b →
  moves_made a = moves_made b → mines a = mines b → safes a = safes b →
  knowledge a = knowledge b → a = b.
Proof. destruct a, b. cbn. congruence. Qed.

Lemma observation_sentence_fresh h w cell count :
  observation_sentence cell count (init h w)
  = Sentence.mk (neighbours h w cell) count.
Proof.
  destruct (observation_sentence_facts cell count (init h w))
    as (Hcells & Hcount & _).
  destruct (observation_sentence cell count (init h w)) as [cs n].
  cbn [Sentence.cells Sentence.count] in *. f_equal.
  - apply set_eq. intros x. rewrite Hcells, elem_of_neighbours.
    unfold in_bounds. cbn. set_solver.
  - rewrite Hcount. cbn [mines init].
    assert (filter (λ n, near cell n ∧ n ≠ cell ∧ in_bounds (init h w) n)
                   (∅ : gset Cell) = ∅) as -> by set_solver.
    rewrite size_empty. lia.
Qed.

Lemma observe_fresh h w cell count :
  observe cell count (init h w)
  = MinesweeperAI.mk h w {[cell]} ∅ {[cell]}
      (if decide (neighbours h w cell = ∅) then []
       else [Sentence.mk (neighbours h w cell) count]).
Proof.
  destruct (observe_sets cell count (init h w)) as (Hh & Hw & Hmv & Hsf & Hmn).
  destruct (observation_sentence_facts cell count (init h w)) as (_ & _ & Hk).
  rewrite observation_sentence_fresh in Hk. cbn in Hk.
  apply ai_ext; cbn; [done | done | | done | |].
  - rewrite Hmv. cbn. set_solver.
  - rewrite Hsf. cbn. set_solver.
  - rewrite Hk. repeat case_decide; try done.
    + exfalso. set_solver.
    + exfalso. tauto.
Qed.

Lemma pass_no_sentence h w mv mn sf :
  closure_pass (MinesweeperAI.mk h w mv mn sf [])
  = (MinesweeperAI.mk h w mv mn sf [], false).
Proof. unfold closure_pass. by rewrite infer_eq. Qed.

Lemma pass_single_open ai N c :
  N ≠ ∅ → c ≠ 0 → c ≠ Z.of_nat (size N) →
  knowledge ai = [Sentence.mk N c] → closure_pass ai = (ai, false).
Proof.
  destruct ai as [h w mv mn sf k]. cbn. intros HN Hc0 Hcn ->.
  assert (size N ≠ 0%nat) as Hsize
    by (intros Hz; apply HN, leibniz_equiv, size_empty_inv, Hz).
  unfold closure_pass, conclude. cbn [knowledge length seq foldl].
  unfold conclude_at. cbn [knowledge]. cbn [lookup list_lookup].
  rewrite known_safes_nonzero, mark_safe_all_eq by done. cbn.
  rewrite difference_empty_L.
  assert (Sentence.known_mines (Sentence.mk N c) = ∅) as ->.
  { unfold Sentence.known_mines. cbn. by rewrite decide_False. }
  rewrite mark_mine_all_eq. cbn.
  rewrite difference_empty_L, intersection_empty_r_L, size_empty, Z.sub_0_r.
  rewrite infer_eq. unfold purge. cbn [knowledge set_knowledge].
  rewrite filter_cons_True by done.
  rewrite filter_nil, derived_single, !(left_id_L ∅ (∪)). by cbn.
Qed.

(** X16.  The first observation on a fresh knowledge base.  A count of 0
    puts every neighbour on the grid into [safes]; a count equal to the
    number of neighbours on the grid puts them all into [mines]; in both
    cases no sentence is left.  Any other count leaves the one sentence
    about the neighbours and concludes nothing.  The call returns [False]
    and the observed cell is a move made and safe. *)
Theorem first_observation (h w : Z) (cell : Cell) (count : Z) :
  add_knowledge cell count (init h w)
  = if decide (count = 0) then
      (MinesweeperAI.mk h w {[cell]} ∅ ({[cell]} ∪ neighbours h w cell) [],
       false)
    else if decide (count = Z.of_nat (size (neighbours h w cell))) then
      (MinesweeperAI.mk h w {[cell]} (neighbours h w cell) {[cell]} [],
       false)
    else
      (MinesweeperAI.mk h w {[cell]} ∅ {[cell]}
         (if decide (neighbours h w cell = ∅) then []
          else [Sentence.mk (neighbours h w cell) count]),
       false).
Proof.
  unfold add_knowledge. rewrite observe_fresh.
  destruct (decide (neighbours h w cell = ∅)) as [HN | HN].
  - rewrite pass_no_sentence, HN, size_empty.
    repeat case_decide; try done. do 2 f_equal. set_solver.
  - destruct (decide (count = 0)) as [-> | Hc0].
    + rewrite (pass_single_zero _ (neighbours h w cell)) by done. cbn.
      do 2 f_equal. set_solver.
    + destruct (decide (count = Z.of_nat (size (neighbours h w cell))))
        as [-> | Hcn].
      * rewrite (pass_single_full _ (neighbours h w cell)) by done. cbn.
        do 2 f_equal. set_solver.
      * by rewrite (pass_single_open _ (neighbours h w cell) count).
Qed.

(** ** The cells of a grid *)

Lemma elem_of_range a b x : x ∈ range a b ↔ a ≤ x < b.
Proof.
  unfold range. rewrite list_elem_of_fmap. split.
  - intros (k & -> & Hk%elem_of_seq). lia.
  - intros Hx. exists (Z.to_nat (x - a)). split; [lia |].
    apply elem_of_seq. lia.
Qed.

Lemma NoDup_range a b : NoDup (range a b).
Proof.
  unfold range. apply NoDup_fmap_2_strong; [| apply NoDup_seq].
  intros k1 k2 _ _ Heq. lia.
Qed.

Lemma length_range a b : length (range a b) = Z.to_nat (b - a).
Proof. unfold range. by rewrite length_fmap, length_seq. Qed.

Lemma elem_of_grid h w c : c ∈ grid h w ↔ 0 ≤ c.1 < h ∧ 0 ≤ c.2 < w.
Proof.
  unfold grid. rewrite list_elem_of_bind. split.
  - intros (i & (j & Hc & Hj%elem_of_range)%list_elem_of_bind
              & Hi%elem_of_range).
    apply list_elem_of_singleton in Hc as ->. cbn. lia.
  - intros [Hi Hj]. exists c.1. split; [| by apply elem_of_range].
    apply list_elem_of_bind. exists c.2. split; [| by apply elem_of_range].
    destruct c. cbn. by left.
Qed.

Lemma NoDup_grid h w : NoDup (grid h w).
Proof.
  unfold grid. apply NoDup_bind; [| | apply NoDup_range].
  - intros i1 i2 c _ _
      (j1 & ->%list_elem_of_singleton & _)%list_elem_of_bind
      (j2 & [= -> _]%list_elem_of_singleton & _)%list_elem_of_bind.
    done.
  - intros i _. apply NoDup_bind; [| | apply NoDup_range].
    + intros j1 j2 c _ _ ->%list_elem_of_singleton
        [= ->]%list_elem_of_singleton. done.
    + intros j _. apply NoDup_singleton.
Qed.

Lemma length_grid_row (i : Z) (l : list Z) :
  length (l ≫= λ j, [(i, j)]) = length l.
Proof. induction l as [| j l IH]; [done |]. cbn. by rewrite IH. Qed.

Lemma length_product (l1 l2 : list Z) :
  length (l1 ≫= λ i, l2 ≫= λ j, [(i, j)]) = (length l1 * length l2)%nat.
Proof.
  induction l1 as [| i l1 IH]; [done |].
  rewrite bind_cons, length_app, length_grid_row, IH. cbn [length]. lia.
Qed.

Lemma length_grid h w : length (grid h w) = (Z.to_nat h * Z.to_nat w)%nat.
Proof.
  unfold grid. by rewrite length_product, !length_range, !Z.sub_0_r.
Qed.

Lemma elem_of_board_cells h w c :
  c ∈ board_cells h w ↔ 0 ≤ c.1 < h ∧ 0 ≤ c.2 < w.
Proof. unfold board_cells. by rewrite elem_of_list_to_set, elem_of_grid. Qed.

Lemma size_board_cells h w :
  0 ≤ h → 0 ≤ w → Z.of_nat (size (board_cells h w)) = h * w.
Proof.
  intros Hh Hw. unfold board_cells.
  rewrite size_list_to_set by apply NoDup_grid. rewrite length_grid. lia.
Qed.

(** ** Random moves *)

Lemma sample_Some ai draws c :
  sample ai draws = Some c →
  c ∈ draws ∧ (c ∉ moves_made ai) ∧ (c ∉ mines ai).
Proof.
  induction draws as [| d draws IH]; [done |]. cbn.
  case_decide as Hfree.
  - intros [= ->]. split; [by left | done].
  - intros (Hin & Hc)%IH. split; [by right | done].
Qed.

Lemma sample_None ai draws :
  sample ai draws = None
  ↔ ∀ c, c ∈ draws → c ∈ moves_made ai ∪ mines ai.
Proof.
  induction draws as [| d draws IH]; cbn.
  - split; [| done]. intros _ c Hc. by apply elem_of_nil in Hc.
  - case_decide as Hfree.
    + split; [done |]. intros Hall. exfalso.
      specialize (Hall d ltac:(by left)). set_solver.
    + rewrite IH. split.
      * intros Hall c [Heq | Hc]%elem_of_cons; [subst c | by apply Hall].
        destruct (decide (d ∈ moves_made ai)); [set_solver |].
        destruct (decide (d ∈ mines ai)); [set_solver | tauto].
      * intros Hall c Hc. apply Hall. by right.
Qed.

(** X17.  A cell [make_random_move] returns is one of the draws, hence on
    the grid, and is neither a move already made nor a known mine. *)
Theorem random_move_is_new (draws : list Cell) (ai : MinesweeperAI.t)
    (c : Cell) :
  Forall (in_bounds ai) draws →
  make_random_move draws ai = Done (Some c) →
  in_bounds ai c ∧ (c ∉ moves_made ai) ∧ (c ∉ mines ai).
Proof.
  intros Hdraws. unfold make_random_move.
  repeat case_decide; try done.
  destruct (sample ai draws) as [c' |] eqn:Hs; [| done].
  intros [= ->]. apply sample_Some in Hs as (Hin & Hc).
  split; [| done]. by eapply (proj1 (Forall_forall _ _) Hdraws).
Qed.

Lemma random_move_is_new_witness :
  (Forall (in_bounds (run session33 (init 3 3))) [(0,0); (1,1); (2,2)]
   ∧ make_random_move [(0,0); (1,1); (2,2)] (run session33 (init 3 3))
     = Done (Some (1,1)))
  ∧ in_bounds (run session33 (init 3 3)) (1,1)
    ∧ ((1,1) ∉ moves_made (run session33 (init 3 3)))
    ∧ ((1,1) ∉ mines (run session33 (init 3 3))).
Proof.
  assert (Forall (in_bounds (run session33 (init 3 3)))
            [(0,0); (1,1); (2,2)]) as Hd by by_evaluation.
  assert (make_random_move [(0,0); (1,1); (2,2)] (run session33 (init 3 3))
          = Done (Some (1,1))) as Hm by (vm_compute; reflexivity).
  split; [done |].
  exact (random_move_is_new _ _ _ Hd Hm).
Defined.

Lemma covered_iff_count ai :
  0 ≤ height ai → 0 ≤ width ai →
  moves_made ai ## mines ai →
  moves_made ai ∪ mines ai ⊆ board_cells (height ai) (width ai) →
  Z.of_nat (size (moves_made ai)) + Z.of_nat (size (mines ai))
  = height ai * width ai
  ↔ board_cells (height ai) (width ai) ⊆ moves_made ai ∪ mines ai.
Proof.
  intros Hh Hw Hdisj Hsub.
  rewrite <- (size_board_cells _ _ Hh Hw).
  rewrite <- Nat2Z.inj_add, <- size_union by done. split.
  - intros Hsize%Nat2Z.inj.
    assert (moves_made ai ∪ mines ai = board_cells (height ai) (width ai))
      as <-; [| done].
    apply set_subseteq_size_eq; [done | lia].
  - intros Hsup. f_equal. f_equal. apply set_eq. set_solver.
Qed.

(** X18.  On a state whose moves and known mines are disjoint and on the
    grid, [make_random_move] returns [None] exactly when every cell of the
    grid is a move made or a known mine. *)
Theorem random_move_none_iff_covered (draws : list Cell)
    (ai : MinesweeperAI.t) :
  0 ≤ height ai → 0 ≤ width ai →
  moves_made ai ## mines ai →
  moves_made ai ∪ mines ai ⊆ board_cells (height ai) (width ai) →
  make_random_move draws ai = Done None
  ↔ board_cells (height ai) (width ai) ⊆ moves_made ai ∪ mines ai.
Proof.
  intros Hh Hw Hdisj Hsub.
  rewrite <- (covered_iff_count ai Hh Hw Hdisj Hsub).
  unfold make_random_move. repeat case_decide; try done.
  by destruct (sample ai draws).
Qed.

Lemma random_move_none_iff_covered_witness :
  (0 ≤ height (run session33 (init 3 3))
   ∧ 0 ≤ width (run session33 (init 3 3))
   ∧ moves_made (run session33 (init 3 3)) ## mines (run session33 (init 3 3))
   ∧ moves_made (run session33 (init 3 3)) ∪ mines (run session33 (init 3 3))
     ⊆ board_cells (height (run session33 (init 3 3)))
         (width (run session33 (init 3 3))))
  ∧ (make_random_move [] (run session33 (init 3 3)) = Done None
     ↔ board_cells (height (run session33 (init 3 3)))
         (width (run session33 (init 3 3)))
       ⊆ moves_made (run session33 (init 3 3))
         ∪ mines (run session33 (init 3 3))).
Proof.
  assert (0 ≤ height (run session33 (init 3 3))) as H1 by by_evaluation.
  assert (0 ≤ width (run session33 (init 3 3))) as H2 by by_evaluation.
  assert (moves_made (run session33 (init 3 3))
          ## mines (run session33 (init 3 3))) as H3 by by_evaluation.
  assert (moves_made (run session33 (init 3 3))
          ∪ mines (run session33 (init 3 3))
          ⊆ board_cells (height (run session33 (init 3 3)))
              (width (run session33 (init 3 3)))) as H4 by by_evaluation.
  split; [done |].
  exact (random_move_none_iff_covered [] _ H1 H2 H3 H4).
Defined.

(** X19.  When every cell of the grid is a move made or a known mine but
    the two sets overlap or leave the grid, so that their sizes do not add
    up to [height * width], the loop of [make_random_move] rejects every
    draw: the call does not return. *)
Theorem random_move_never_returns (draws : list Cell)
    (ai : MinesweeperAI.t) :
  0 < height ai → 0 < width ai →
  Z.of_nat (size (moves_made ai)) + Z.of_nat (size (mines ai))
    ≠ height ai * width ai →
  board_cells (height ai) (width ai) ⊆ moves_made ai ∪ mines ai →
  Forall (in_bounds ai) draws →
  make_random_move draws ai = NoMoreDraws.
Proof.
  intros Hh Hw Hcount Hcovered Hdraws. unfold make_random_move.
  rewrite decide_False by done. rewrite decide_False by lia.
  assert (sample ai draws = None) as ->; [| done].
  apply sample_None. intros c Hc. apply Hcovered, elem_of_board_cells.
  by apply (proj1 (Forall_forall _ _) Hdraws).
Qed.

Lemma random_move_never_returns_witness :
  (0 < height (run [RecordObservation (0,0) 0; DeclareMine (0,0)] (init 1 1))
   ∧ 0 < width (run [RecordObservation (0,0) 0; DeclareMine (0,0)] (init 1 1))
   ∧ Z.of_nat
       (size (moves_made
                (run [RecordObservation (0,0) 0; DeclareMine (0,0)]
                     (init 1 1))))
     + Z.of_nat
         (size (mines
                  (run [RecordObservation (0,0) 0; DeclareMine (0,0)]
                       (init 1 1))))
     ≠ height (run [RecordObservation (0,0) 0; DeclareMine (0,0)] (init 1 1))
       * width (run [RecordObservation (0,0) 0; DeclareMine (0,0)] (init 1 1))
   ∧ board_cells
       (height (run [RecordObservation (0,0) 0; DeclareMine (0,0)] (init 1 1)))
       (width (run [RecordObservation (0,0) 0; DeclareMine (0,0)] (init 1 1)))
     ⊆ moves_made (run [RecordObservation (0,0) 0; DeclareMine (0,0)]
                       (init 1 1))
       ∪ mines (run [RecordObservation (0,0) 0; DeclareMine (0,0)] (init 1 1))
   ∧ Forall
       (in_bounds (run [RecordObservation (0,0) 0; DeclareMine (0,0)]
                       (init 1 1)))
       [(0,0); (0,0)])
  ∧ make_random_move [(0,0); (0,0)]
      (run [RecordObservation (0,0) 0; DeclareMine (0,0)] (init 1 1))
    = NoMoreDraws.
Proof.
  split; [by_evaluation |].
  apply random_move_never_returns; by_evaluation.
Defined.

(** ** The board of the game *)

Lemma py_index_nonneg {A} (l : list A) (i : Z) :
  0 ≤ i → py_index l i = l !! Z.to_nat i.
Proof. intros Hi. unfold py_index. by rewrite decide_True. Qed.

Lemma py_store_nonneg {A} (l : list A) (i : Z) (x : A) :
  0 ≤ i < Z.of_nat (length l) →
  py_store l i x = Some (<[Z.to_nat i := x]> l).
Proof.
  intros Hi. unfold py_store. by rewrite !decide_True by lia.
Qed.

Lemma fold_append_replicate {A B} (x : A) (l : list B) (acc : list A) :
  foldl (λ row _, row ++ [x]) acc l = acc ++ replicate (length l) x.
Proof.
  revert acc. induction l as [| b l IH]; intros acc; cbn.
  - by rewrite app_nil_r.
  - rewrite IH, <- app_assoc. done.
Qed.

Lemma empty_board_eq h w :
  Game.empty_board h w
  = replicate (Z.to_nat h) (replicate (Z.to_nat w) false).
Proof.
  unfold Game.empty_board, Game.empty_row.
  by rewrite !fold_append_replicate, !length_range, !Z.sub_0_r.
Qed.

Lemma read_lookup board (c : Cell) :
  0 ≤ c.1 → 0 ≤ c.2 →
  Game.read board c = board !! Z.to_nat c.1 ≫= λ row, row !! Z.to_nat c.2.
Proof.
  intros H1 H2. unfold Game.read. rewrite py_index_nonneg by done.
  destruct (board !! Z.to_nat c.1) as [row |]; [| done]. cbn.
  by apply py_index_nonneg.
Qed.

Lemma agrees_empty h w : Game.agrees h w ∅ (Game.empty_board h w).
Proof.
  rewrite empty_board_eq. split; [| split; [| split]].
  - apply length_replicate.
  - apply Forall_replicate, length_replicate.
  - intros c [Hi Hj]%elem_of_board_cells. cbn beta.
    rewrite read_lookup by lia.
    rewrite lookup_replicate_2 by lia. cbn.
    rewrite lookup_replicate_2 by lia.
    by rewrite bool_decide_eq_false_2 by set_solver.
  - set_solver.
Qed.

Lemma agrees_mark h w mines board c :
  c ∈ board_cells h w → Game.agrees h w mines board →
  ∃ board', Game.mark board c = Some board'
            ∧ Game.agrees h w ({[c]} ∪ mines) board'.
Proof.
  intros Hc (Hlen & Hrows & Hread & Hsub).
  pose proof Hc as [Hi Hj]%elem_of_board_cells.
  destruct (lookup_lt_is_Some_2 board (Z.to_nat c.1)) as [row Hrow]; [lia |].
  assert (length row = Z.to_nat w) as Hlrow
    by by eapply (Forall_lookup_1 _ _ _ _ Hrows).
  exists (<[Z.to_nat c.1 := <[Z.to_nat c.2 := true]> row]> board).
  split.
  { unfold Game.mark. rewrite py_index_nonneg, Hrow by lia. cbn.
    rewrite py_store_nonneg by lia. cbn.
    by rewrite py_store_nonneg by lia. }
  split; [| split; [| split]].
  - by rewrite length_insert.
  - apply Forall_insert; [done |]. by rewrite length_insert.
  - intros c' Hc'. pose proof Hc' as [Hi' Hj']%elem_of_board_cells.
    specialize (Hread c' Hc'). cbn beta in Hread |- *.
    rewrite read_lookup in Hread |- * by lia.
    destruct (decide (Z.to_nat c'.1 = Z.to_nat c.1)) as [Heq1 | Hne1].
    + rewrite Heq1, list_lookup_insert_eq by lia. cbn.
      rewrite Heq1, Hrow in Hread. cbn in Hread.
      destruct (decide (Z.to_nat c'.2 = Z.to_nat c.2)) as [Heq2 | Hne2].
      * rewrite Heq2, list_lookup_insert_eq by lia.
        assert (c' = c) as -> by (destruct c, c'; cbn in *; f_equal; lia).
        by rewrite bool_decide_eq_true_2 by set_solver.
      * rewrite list_lookup_insert_ne by done. rewrite Hread.
        f_equal. apply bool_decide_ext.
        assert (c' ≠ c) by (intros ->; done). set_solver.
    + rewrite list_lookup_insert_ne by done. rewrite Hread.
      f_equal. apply bool_decide_ext.
      assert (c' ≠ c) by (intros ->; done). set_solver.
  - set_solver.
Qed.

Lemma place_agrees h w wanted draws mines board mines' board' :
  Forall (λ c, c ∈ board_cells h w) draws →
  Game.agrees h w mines board →
  Game.place h w wanted draws mines board = Done (mines', board') →
  Game.agrees h w mines' board' ∧ Z.of_nat (size mines') = wanted.
Proof.
  intros Hdraws. revert mines board.
  induction Hdraws as [| c draws Hc Hdraws IH]; intros mines board Hag;
    cbn [Game.place].
  - repeat case_decide; try done. by intros [= <- <-].
  - case_decide as Hdone; [by intros [= <- <-] |].
    case_decide; [done |].
    destruct Hag as (Hlen & Hrows & Hread & Hsub).
    pose proof (Hread c Hc) as Hr. cbn beta in Hr. rewrite Hr.
    case_bool_decide as Hin.
    + by apply IH.
    + destruct (agrees_mark h w mines board c Hc) as (b & -> & Hag');
        [done |].
      by apply IH.
Qed.

Lemma place_no_index_error h w wanted draws mines board :
  Forall (λ c, c ∈ board_cells h w) draws →
  Game.agrees h w mines board →
  Game.place h w wanted draws mines board ≠ Raised IndexError.
Proof.
  intros Hdraws. revert mines board.
  induction Hdraws as [| c draws Hc Hdraws IH]; intros mines board Hag;
    cbn [Game.place].
  - by repeat case_decide.
  - case_decide; [done |]. case_decide; [done |].
    destruct Hag as (Hlen & Hrows & Hread & Hsub).
    pose proof (Hread c Hc) as Hr. cbn beta in Hr. rewrite Hr.
    case_bool_decide as Hin.
    + by apply IH.
    + destruct (agrees_mark h w mines board c Hc) as (b & -> & Hag');
        [done |].
      by apply IH.
Qed.

(** X20.  [Minesweeper.__init__] with draws on the grid never indexes the
    board out of range, and a game it returns has the announced size, a
    grid of [height] rows of [width] booleans that is [True] exactly at the
    mines, exactly the wanted number of mines, all on the grid, and no mine
    found; it counts as won from the start exactly when no mine was
    wanted. *)
Theorem game_init_spec (h w wanted : Z) (draws : list Cell) :
  Forall (λ c, c ∈ board_cells h w) draws →
  Game.init h w wanted draws ≠ Raised IndexError
  ∧ ∀ g, Game.init h w wanted draws = Done g →
         Game.height g = h ∧ Game.width g = w
         ∧ Game.well_formed g
         ∧ Z.of_nat (size (Game.mines g)) = wanted
         ∧ Game.mines_found g = ∅
         ∧ (Game.won g = true ↔ wanted = 0).
Proof.
  intros Hdraws. unfold Game.init.
  pose proof (place_no_index_error h w wanted draws ∅ _ Hdraws
                (agrees_empty h w)) as Hno.
  pose proof (place_agrees h w wanted draws ∅ (Game.empty_board h w))
    as Hplace.
  destruct (Game.place h w wanted draws ∅ (Game.empty_board h w))
    as [[mines board] | | e].
  - split; [done |]. intros g [= <-].
    destruct (Hplace mines board Hdraws (agrees_empty h w) eq_refl)
      as [Hag Hsize].
    split; [done |]. split; [done |]. split; [exact Hag |].
    split; [done |]. split; [done |].
    unfold Game.won. cbn. rewrite bool_decide_eq_true. split.
    + intros Hwon. rewrite <- Hwon, size_empty in Hsize. lia.
    + intros ->. symmetry. apply leibniz_equiv, size_empty_inv. lia.
  - split; [done |]. done.
  - split; [| done]. intros [= ->]. done.
Qed.

Lemma game_init_spec_witness :
  Forall (λ c, c ∈ board_cells 2 2) [(0,1); (0,1); (1,0)]
  ∧ Game.init 2 2 2 [(0,1); (0,1); (1,0)] ≠ Raised IndexError
  ∧ ∀ g, Game.init 2 2 2 [(0,1); (0,1); (1,0)] = Done g →
         Game.height g = 2 ∧ Game.width g = 2
         ∧ Game.well_formed g
         ∧ Z.of_nat (size (Game.mines g)) = 2
         ∧ Game.mines_found g = ∅
         ∧ (Game.won g = true ↔ 2 = 0).
Proof.
  split; [by_evaluation |]. apply game_init_spec. by_evaluation.
Defined.

Lemma view_nearby_step g cell k n :
  Game.well_formed g →
  Game.nearby_step g cell (Some k) n
  = Some (Minesweeper.nearby_step (Game.view g) cell k n).
Proof.
  intros (_ & _ & Hread & _).
  unfold Game.nearby_step, Minesweeper.nearby_step, Minesweeper.is_mine.
  cbn [mbind option_bind]. case_decide; [done |].
  destruct (decide (0 ≤ n.1 < Game.height g ∧ 0 ≤ n.2 < Game.width g))
    as [Hb | Hb];
    destruct (decide (Minesweeper.on_board (Game.view g) n)) as [Hb' | Hb'];
    try done; try (exfalso; by apply Hb'); try (exfalso; by apply Hb).
  pose proof (Hread n ltac:(by apply elem_of_board_cells)) as Hr.
  cbn beta in Hr. by rewrite Hr.
Qed.

Lemma view_nearby_fold g cell l k :
  Game.well_formed g →
  foldl (Game.nearby_step g cell) (Some k) l
  = Some (foldl (Minesweeper.nearby_step (Game.view g) cell) k l).
Proof.
  intros Hg. revert k.
  induction l as [| n l IH]; intros k; [done |]. cbn [foldl].
  by rewrite view_nearby_step, IH.
Qed.

Lemma game_view_facts (g : Game.t) (cell : Cell) :
  Game.well_formed g →
  Game.nearby_mines g cell
  = Some (Minesweeper.nearby_mines (Game.view g) cell)
  ∧ (cell ∈ board_cells (Game.height g) (Game.width g) →
     Game.is_mine g cell = Some (Minesweeper.is_mine (Game.view g) cell)).
Proof.
  intros Hg. split; [by apply view_nearby_fold |].
  intros Hcell. destruct Hg as (_ & _ & Hread & _). by apply (Hread cell).
Qed.

(** X21.  On a well-formed game, reading the grid agrees with the set of
    mines: [nearby_mines] never fails and is the count computed from the
    mine set, and [is_mine] on a cell of the board tells whether the cell
    is in [mines]. *)
Theorem game_view_faithful (g : Game.t) (cell : Cell) :
  Game.well_formed g →
  Game.nearby_mines g cell
  = Some (Minesweeper.nearby_mines (Game.view g) cell)
  ∧ (cell ∈ board_cells (Game.height g) (Game.width g) →
     Game.is_mine g cell = Some (Minesweeper.is_mine (Game.view g) cell)).
Proof. apply game_view_facts. Qed.

Lemma game_view_faithful_witness :
  Game.well_formed game22
  ∧ Game.nearby_mines game22 (1,1)
    = Some (Minesweeper.nearby_mines (Game.view game22) (1,1))
  ∧ ((1,1) ∈ board_cells (Game.height game22) (Game.width game22) →
     Game.is_mine game22 (1,1)
     = Some (Minesweeper.is_mine (Game.view game22) (1,1))).
Proof.
  split; [by_evaluation |]. apply (game_view_faithful game22 (1,1)).
  by_evaluation.
Defined.

Lemma place_never_done h w wanted draws mines board :
  0 < h → 0 < w → wanted < 0 ∨ h * w < wanted →
  Forall (λ c, c ∈ board_cells h w) draws →
  Game.agrees h w mines board →
  Game.place h w wanted draws mines board = NoMoreDraws.
Proof.
  intros Hh Hw Hwanted Hdraws. revert mines board.
  induction Hdraws as [| c draws Hc Hdraws IH]; intros mines board Hag;
    cbn [Game.place].
  all: assert (Z.of_nat (size mines) ≠ wanted) as Hsize.
  1,3: destruct Hag as (_ & _ & _ & Hsub%subseteq_size);
       pose proof (size_board_cells h w) as Hcells; lia.
  - rewrite decide_False by done. by rewrite decide_False by lia.
  - rewrite decide_False by done. rewrite decide_False by lia.
    pose proof Hag as (Hlen & Hrows & Hread & Hsub).
    pose proof (Hread c Hc) as Hr. cbn beta in Hr. rewrite Hr.
    case_bool_decide as Hin.
    + by apply IH.
    + destruct (agrees_mark h w mines board c Hc) as (b & -> & Hag');
        [done |].
      by apply IH.
Qed.

(** X22.  When more mines are wanted than the board has cells, or fewer
    than none, the loop of [Minesweeper.__init__] never ends, whatever the
    draws. *)
Theorem game_init_never_returns (h w wanted : Z) (draws : list Cell) :
  0 < h → 0 < w → wanted < 0 ∨ h * w < wanted →
  Forall (λ c, c ∈ board_cells h w) draws →
  Game.init h w wanted draws = NoMoreDraws.
Proof.
  intros Hh Hw Hwanted Hdraws. unfold Game.init.
  by rewrite (place_never_done h w wanted draws ∅ _ Hh Hw Hwanted Hdraws
                (agrees_empty h w)).
Qed.

Lemma game_init_never_returns_witness :
  (0 < 1 ∧ 0 < 2 ∧ (3 < 0 ∨ 1 * 2 < 3)
   ∧ Forall (λ c, c ∈ board_cells 1 2) [(0,0); (0,1); (0,0)])
  ∧ Game.init 1 2 3 [(0,0); (0,1); (0,0)] = NoMoreDraws.
Proof.
  split; [by_evaluation |].
  apply game_init_never_returns; by_evaluation.
Defined.

(** X23.  [is_mine] does not check bounds: on a well-formed game a row
    index from [-height] to [-1] reads the row [height] further down, and a
    row index beyond that range on either side is an [IndexError]. *)
Theorem is_mine_row_index (g : Game.t) (i j : Z) :
  Game.well_formed g →
  (- Game.height g ≤ i < 0 →
   Game.is_mine g (i, j) = Game.is_mine g (i + Game.height g, j))
  ∧ (0 ≤ Game.height g → Game.height g ≤ i ∨ i < - Game.height g →
     Game.is_mine g (i, j) = None).
Proof.
  intros (Hlen & _). unfold Game.is_mine, Game.read, py_index.
  cbn [fst snd]. split.
  - intros Hi. rewrite (decide_False (P:=0 ≤ i)) by lia.
    rewrite (decide_True (P:=0 ≤ i + Game.height g)) by lia.
    rewrite decide_True by lia.
    by replace (Z.of_nat (length (Game.board g)) + i)
      with (i + Game.height g) by lia.
  - intros Hh [Hi | Hi].
    + rewrite (decide_True (P:=0 ≤ i)) by lia.
      by rewrite lookup_ge_None_2 by lia.
    + rewrite (decide_False (P:=0 ≤ i)) by lia.
      by rewrite decide_False by lia.
Qed.

Lemma is_mine_row_index_witness :
  Game.well_formed game22
  ∧ (- Game.height game22 ≤ -1 < 0 →
     Game.is_mine game22 (-1, 1)
     = Game.is_mine game22 (-1 + Game.height game22, 1))
  ∧ (0 ≤ Game.height game22 →
     Game.height game22 ≤ -1 ∨ -1 < - Game.height game22 →
     Game.is_mine game22 (-1, 1) = None).
Proof.
  split; [by_evaluation |]. apply (is_mine_row_index game22 (-1) 1).
  by_evaluation.
Defined.

(** ** The engine fed by the game *)




(** ** Random moves in a truthful session *)

Lemma observed_on_board g cs :
  Forall (truthful g) cs →
  list_to_set (observed_cells cs)
  ⊆ board_cells (Minesweeper.height g) (Minesweeper.width g).
Proof.
  induction 1 as [| c cs Hc Hcs IH]; [set_solver |].
  destruct c as [cell count | cell | cell]; cbn [observed_cells omap];
    fold (observed_cells cs); [| done ..].
  destruct Hc as (Hcell & _). cbn [list_to_set].
  apply union_subseteq. split; [| done].
  apply singleton_subseteq_l, elem_of_board_cells, Hcell.
Qed.

(** X25.  In a session that is truthful about a board whose mines are all
    on it, [make_random_move] returns [None] exactly when every cell of the
    board is a move made or a known mine; otherwise it returns a cell as
    soon as a draw is neither. *)
Theorem random_move_in_session (g : Minesweeper.t) (cs : list call)
    (draws : list Cell) :
  0 ≤ Minesweeper.height g → 0 ≤ Minesweeper.width g →
  Minesweeper.mines g
    ⊆ board_cells (Minesweeper.height g) (Minesweeper.width g) →
  Forall (truthful g) cs →
  Forall (λ c, c ∈ board_cells (Minesweeper.height g) (Minesweeper.width g))
         draws →
  (make_random_move draws
     (run cs (init (Minesweeper.height g) (Minesweeper.width g)))
   = Done None
   ↔ board_cells (Minesweeper.height g) (Minesweeper.width g)
     ⊆ moves_made
         (run cs (init (Minesweeper.height g) (Minesweeper.width g)))
       ∪ mines (run cs (init (Minesweeper.height g) (Minesweeper.width g))))
  ∧ (Exists
       (λ c, c ∉ moves_made
                   (run cs (init (Minesweeper.height g) (Minesweeper.width g)))
                 ∪ mines
                     (run cs
                        (init (Minesweeper.height g) (Minesweeper.width g))))
       draws →
     ∃ c, make_random_move draws
            (run cs (init (Minesweeper.height g) (Minesweeper.width g)))
          = Done (Some c)).
Proof.
  intros Hh Hw Hwf Hcs Hdraws.
  destruct (consistent_run g cs _ Hcs (consistent_init g))
    as [Hh' Hw' Hmines _ Hmoves _].
  destruct (moves_are_observed_cells_aux cs (Minesweeper.height g)
              (Minesweeper.width g)) as [Hobs _].
  pose proof (observed_on_board g cs Hcs) as Hon.
  set (ai := run cs (init (Minesweeper.height g) (Minesweeper.width g))) in *.
  assert (moves_made ai ## mines ai) as Hdisj by set_solver.
  assert (moves_made ai ∪ mines ai
          ⊆ board_cells (height ai) (width ai)) as Hsub.
  { rewrite Hh', Hw', Hobs. set_solver. }
  assert (0 ≤ height ai) as Hhai by lia.
  assert (0 ≤ width ai) as Hwai by lia.
  pose proof (covered_iff_count ai Hhai Hwai Hdisj Hsub) as Hcount.
  rewrite Hh', Hw' in Hcount. split.
  - rewrite <- Hcount. unfold make_random_move.
    rewrite Hh', Hw'. repeat case_decide; try done.
    by destruct (sample ai draws).
  - intros (c & Hc & Hfree)%Exists_exists.
    assert (c ∈ board_cells (Minesweeper.height g) (Minesweeper.width g))
      as Hcb by by apply (proj1 (Forall_forall _ _) Hdraws).
    unfold make_random_move. rewrite Hh', Hw'.
    rewrite decide_False by (rewrite Hcount; set_solver).
    apply elem_of_board_cells in Hcb.
    rewrite decide_False by lia.
    destruct (sample ai draws) as [c' |] eqn:Hs; [by exists c' |].
    exfalso. apply Hfree. by eapply sample_None.
Qed.

Lemma random_move_in_session_witness :
  (0 ≤ Minesweeper.height board33 ∧ 0 ≤ Minesweeper.width board33
   ∧ Minesweeper.mines board33
     ⊆ board_cells (Minesweeper.height board33) (Minesweeper.width board33)
   ∧ Forall (truthful board33) session33
   ∧ Forall
       (λ c, c ∈ board_cells (Minesweeper.height board33)
                   (Minesweeper.width board33))
       [(0,0); (2,2)])
  ∧ (make_random_move [(0,0); (2,2)]
       (run session33
          (init (Minesweeper.height board33) (Minesweeper.width board33)))
     = Done None
     ↔ board_cells (Minesweeper.height board33) (Minesweeper.width board33)
       ⊆ moves_made
           (run session33
              (init (Minesweeper.height board33) (Minesweeper.width board33)))
         ∪ mines
             (run session33
                (init (Minesweeper.height board33)
                   (Minesweeper.width board33))))
    ∧ (Exists
         (λ c, c ∉ moves_made
                     (run session33
                        (init (Minesweeper.height board33)
                           (Minesweeper.width board33)))
                   ∪ mines
                       (run session33
                          (init (Minesweeper.height board33)
                             (Minesweeper.width board33))))
         [(0,0); (2,2)] →
       ∃ c, make_random_move [(0,0); (2,2)]
              (run session33
                 (init (Minesweeper.height board33)
                    (Minesweeper.width board33)))
            = Done (Some c)).
Proof.
  assert (0 ≤ Minesweeper.height board33) as H1 by by_evaluation.
  assert (0 ≤ Minesweeper.width board33) as H2 by by_evaluation.
  assert (Minesweeper.mines board33
          ⊆ board_cells (Minesweeper.height board33)
              (Minesweeper.width board33)) as H3 by by_evaluation.
  assert (Forall (truthful board33) session33) as H4 by by_evaluation.
  assert (Forall
            (λ c, c ∈ board_cells (Minesweeper.height board33)
                        (Minesweeper.width board33))
            [(0,0); (2,2)]) as H5 by by_evaluation.
  split; [done |].
  exact (random_move_in_session board33 session33 [(0,0); (2,2)]
           H1 H2 H3 H4 H5).
Defined.

(** ** The conclusions a pass draws *)

Lemma tracks_start a : tracks (knowledge a) a.
Proof. intros i s0 Hi. exists s0. set_solver. Qed.

Lemma tracks_mark_safe_all cs k0 a :
  tracks k0 a → tracks k0 (mark_safe_all cs a).
Proof.
  intros Ha i s0 Hi. destruct (Ha i s0 Hi) as (s & Hs & Hsub & Hsup).
  rewrite mark_safe_all_eq. cbn. rewrite list_lookup_fmap, Hs. cbn.
  eexists. split; [done |]. cbn. split; [set_solver |].
  intros x Hx. destruct (decide (x ∈ cs)); set_solver.
Qed.

Lemma tracks_mark_mine_all cs k0 a :
  tracks k0 a → tracks k0 (mark_mine_all cs a).
Proof.
  intros Ha i s0 Hi. destruct (Ha i s0 Hi) as (s & Hs & Hsub & Hsup).
  rewrite mark_mine_all_eq. cbn. rewrite list_lookup_fmap, Hs. cbn.
  eexists. split; [done |]. cbn. split; [set_solver |].
  intros x Hx. destruct (decide (x ∈ cs)); set_solver.
Qed.

Lemma tracks_conclude_at i k0 a : tracks k0 a → tracks k0 (conclude_at i a).
Proof.
  intros Ha. unfold conclude_at.
  destruct (knowledge a !! i) as [s |]; [| done]. cbn zeta.
  pose proof (tracks_mark_safe_all (Sentence.known_safes s) k0 a Ha) as Ha1.
  destruct (knowledge (mark_safe_all _ a) !! i) as [s' |]; [| done].
  by apply tracks_mark_mine_all.
Qed.

Lemma conclude_at_empties i a s :
  knowledge a !! i = Some s →
  Sentence.count s = 0
  ∨ Sentence.count s = Z.of_nat (size (Sentence.cells s)) →
  ∃ s', knowledge (conclude_at i a) !! i = Some s' ∧ Sentence.cells s' = ∅.
Proof.
  intros Hi Hs. unfold conclude_at. rewrite Hi. cbn zeta.
  rewrite mark_safe_all_eq. cbn [knowledge].
  rewrite list_lookup_fmap, Hi. cbn [fmap option_fmap option_map].
  rewrite mark_mine_all_eq. cbn [knowledge].
  rewrite list_lookup_fmap, list_lookup_fmap, Hi.
  cbn [fmap option_fmap option_map]. eexists. split; [done |].
  cbn [Sentence.cells Sentence.count].
  unfold Sentence.known_safes, Sentence.known_mines.
  cbn [Sentence.cells Sentence.count].
  destruct (decide (Sentence.count s = 0)) as [H0 | H0].
  - set_solver.
  - destruct Hs as [Hs | Hs]; [done |].
    rewrite difference_empty_L, decide_True by done. set_solver.
Qed.

Section Conclusions.
Context (g : Minesweeper.t).

#[local] Abbreviation Mc := (Minesweeper.mines g).

Lemma conclusive_shrinks s0 s :
  holds Mc s0 → holds Mc s → Sentence.cells s ⊆ Sentence.cells s0 →
  Sentence.count s0 = 0
  ∨ Sentence.count s0 = Z.of_nat (size (Sentence.cells s0)) →
  Sentence.count s = 0
  ∨ Sentence.count s = Z.of_nat (size (Sentence.cells s)).
Proof.
  unfold holds. intros H0 Hs Hsub [Hz | Hfull].
  - left. rewrite Hs.
    assert (size (Sentence.cells s0 ∩ Mc) = 0%nat) as Hempty by lia.
    apply size_empty_inv in Hempty.
    assert (Sentence.cells s ∩ Mc = ∅) as -> by set_solver.
    by rewrite size_empty.
  - right. rewrite Hs.
    assert (Sentence.cells s0 ∩ Mc ≡ Sentence.cells s0) as Hall.
    { apply set_subseteq_size_equiv; [set_solver | lia]. }
    by assert (Sentence.cells s ∩ Mc = Sentence.cells s) as -> by set_solver.
Qed.

Lemma conclude_fold_resolves k0 (l : list nat) a :
  Forall (holds Mc) k0 → consistent g a → tracks k0 a →
  consistent g (foldl (λ a i, conclude_at i a) a l)
  ∧ tracks k0 (foldl (λ a i, conclude_at i a) a l)
  ∧ ∀ i s0, i ∈ l → k0 !! i = Some s0 →
      Sentence.count s0 = 0
      ∨ Sentence.count s0 = Z.of_nat (size (Sentence.cells s0)) →
      Sentence.cells s0
      ⊆ safes (foldl (λ a i, conclude_at i a) a l)
        ∪ mines (foldl (λ a i, conclude_at i a) a l).
Proof.
  intros Hk0. revert a.
  induction l as [| i l IH]; intros a Hcons Htr; cbn [foldl].
  - split; [done |]. split; [done |]. intros i s0 Hi. by apply elem_of_nil in Hi.
  - pose proof (consistent_conclude_at g i a Hcons) as Hcons1.
    pose proof (tracks_conclude_at i k0 a Htr) as Htr1.
    destruct (IH _ Hcons1 Htr1) as (Hcons' & Htr' & Hres).
    split; [done |]. split; [done |].
    intros j s0 [-> | Hj]%elem_of_cons Hj0 Hconcl; [| by eapply Hres].
    destruct (Htr i s0 Hj0) as (s & Hs & Hsub & _).
    assert (holds Mc s0) as Hs0 by by eapply (Forall_lookup_1 _ _ _ _ Hk0).
    pose proof (consistent_lookup g a i s Hcons Hs) as Hhs.
    pose proof (conclusive_shrinks s0 s Hs0 Hhs Hsub Hconcl) as Hconcl'.
    destruct (conclude_at_empties i a s Hs Hconcl') as (s1 & Hs1 & Hempty).
    destruct (Htr1 i s0 Hj0) as (s1' & Hs1' & _ & Hsup1).
    rewrite Hs1 in Hs1'. injection Hs1' as <-. rewrite Hempty in Hsup1.
    pose proof (extends_conclude_list l (conclude_at i a))
      as (_ & _ & _ & Hsf & Hmn).
    set_solver.
Qed.

End Conclusions.

Lemma closure_pass_sets a :
  safes (closure_pass a).1 = safes (conclude a)
  ∧ mines (closure_pass a).1 = mines (conclude a).
Proof. unfold closure_pass. by rewrite infer_eq. Qed.

(** X26.  In a truthful session, the pass of [add_knowledge] draws every
    conclusion that is open when it starts: of each sentence that is in the
    knowledge base once the new sentence has been added, all the cells are
    in [safes] at return if its count is 0, and all are in [mines] if its
    count is the number of its cells. *)
Theorem conclusions_drawn (g : Minesweeper.t) (cs : list call)
    (cell : Cell) (count : Z) (s : Sentence.t) :
  Forall (truthful g) (cs ++ [RecordObservation cell count]) →
  s ∈ knowledge
        (observe cell count
           (run cs (init (Minesweeper.height g) (Minesweeper.width g)))) →
  (Sentence.count s = 0 →
   Sentence.cells s
   ⊆ safes (add_knowledge cell count
              (run cs (init (Minesweeper.height g) (Minesweeper.width g)))).1)
  ∧ (Sentence.count s = Z.of_nat (size (Sentence.cells s)) →
     Sentence.cells s
     ⊆ mines (add_knowledge cell count
                (run cs
                   (init (Minesweeper.height g) (Minesweeper.width g)))).1).
Proof.
  intros [Hcs Hobs]%Forall_app Hs.
  apply Forall_singleton in Hobs as (_ & Hcell%not_mine_iff & ->).
  pose proof (consistent_run g cs _ Hcs (consistent_init g)) as Hai.
  pose proof (consistent_observe g cell _ Hcell Hai) as Hst.
  set (st := observe cell (Minesweeper.nearby_mines g cell)
               (run cs (init (Minesweeper.height g) (Minesweeper.width g))))
    in *.
  unfold add_knowledge. fold st.
  destruct (closure_pass_sets st) as [-> ->].
  assert (Forall (holds (Minesweeper.mines g)) (knowledge st)) as Hk
    by by destruct Hst.
  destruct (conclude_fold_resolves g (knowledge st)
              (seq 0 (length (knowledge st))) st Hk Hst (tracks_start st))
    as (Hcons & _ & Hres).
  fold (conclude st) in Hcons, Hres.
  apply list_elem_of_lookup in Hs as [i Hi].
  assert (i ∈ seq 0 (length (knowledge st))) as Hin.
  { apply elem_of_seq. apply lookup_lt_Some in Hi. lia. }
  assert (holds (Minesweeper.mines g) s) as Hhs
    by by eapply (Forall_lookup_1 _ _ _ _ Hk).
  destruct Hcons as [_ _ Hmines Hsafes _ _].
  revert Hres Hmines Hsafes. generalize (conclude st).
  intros c Hres Hmines Hsafes. split.
  - intros Hz. specialize (Hres i s Hin Hi (or_introl Hz)).
    pose proof (known_safes_disjoint _ s Hhs) as Hdis.
    unfold Sentence.known_safes in Hdis. rewrite decide_True in Hdis by done.
    set_solver.
  - intros Hfull. specialize (Hres i s Hin Hi (or_intror Hfull)).
    pose proof (known_mines_subseteq _ s Hhs) as Hsub.
    unfold Sentence.known_mines in Hsub. rewrite decide_True in Hsub by done.
    set_solver.
Qed.

Lemma conclusions_drawn_witness :
  (Forall (truthful board23) (session23_row ++ [RecordObservation (0,1) 2])
   ∧ Sentence.mk {[ (0,2) ]} 1
     ∈ knowledge
         (observe (0,1) 2
            (run session23_row
               (init (Minesweeper.height board23)
                  (Minesweeper.width board23)))))
  ∧ (Sentence.count (Sentence.mk {[ (0,2) ]} 1) = 0 →
     Sentence.cells (Sentence.mk {[ (0,2) ]} 1)
     ⊆ safes (add_knowledge (0,1) 2
                (run session23_row
                   (init (Minesweeper.height board23)
                      (Minesweeper.width board23)))).1)
  ∧ (Sentence.count (Sentence.mk {[ (0,2) ]} 1)
     = Z.of_nat (size (Sentence.cells (Sentence.mk {[ (0,2) ]} 1))) →
     Sentence.cells (Sentence.mk {[ (0,2) ]} 1)
     ⊆ mines (add_knowledge (0,1) 2
                (run session23_row
                   (init (Minesweeper.height board23)
                      (Minesweeper.width board23)))).1).
Proof.
  assert (Forall (truthful board23)
            (session23_row ++ [RecordObservation (0,1) 2])) as H1
    by by_evaluation.
  assert (Sentence.mk {[ (0,2) ]} 1
          ∈ knowledge
              (observe (0,1) 2
                 (run session23_row
                    (init (Minesweeper.height board23)
                       (Minesweeper.width board23))))) as H2
    by by_evaluation.
  split; [done |].
  exact (conclusions_drawn board23 session23_row (0,1) 2 _ H1 H2).
Defined.

(** ** What no live sentence mentions *)

(** X27.  Whatever the calls on a fresh knowledge base, no live sentence
    mentions a cell that is a move already made or a known mine. *)
Theorem sentences_settled (cs : list call) (h w : Z) :
  Forall (λ s, Sentence.cells s
               ## moves_made (run cs (init h w)) ∪ mines (run cs (init h w)))
         (knowledge (run cs (init h w))).
Proof. apply settled_run. Qed.
